(** * SIMD-accelerated market data parser: delimiter scanners, numeric
      converters, field tokenizer and record builder.

    Shallow embedding of the [simd_parser] namespace: the scanners and the
    numeric converters of [simd_utils.cpp], the record and the tag numbers of
    [fix_message.hpp], and [split_field], [populate_message], [parse_scalar],
    [parse_simd] and [parse_auto] of the parser's implementation file.
    Beside them: [has_avx512_support] as a function of the hardware's
    answers, and the generators of the test data ([generate_long_message],
    [generate_test_string], [generate_message_batch]).

    Conventions of the embedding:
    - a [std::string_view] is the list of the bytes it views; the borrowed
      pointer is not modelled, only the contents;
    - [size_t] offsets are [nat]: every offset the code computes is at most
      the buffer size, so no 64-bit wrap-around can occur on them;
    - the 64-bit [__mmask64] is a [Z] in [0, 2^64), with its wrap-around
      written out where the code subtracts;
    - [int32_t] is a [Z] kept in range by [wrap32], [uint32_t] by [wrap_u32];
    - [double] is the IEEE binary64 of [PrimFloat], every operation rounded
      on its own. *)

From Stdlib Require Import ZArith List Bool Lia String Sorted DecimalString.
From Stdlib Require Import Init.Byte Strings.Byte.
From Stdlib Require Import Floats.PrimFloat Numbers.Cyclic.Int63.Uint63.
Import ListNotations.

Local Open Scope Z_scope.

(** ** Bytes and views *)

Definition string_view : Type := list byte.

(** A string literal as the bytes a [std::string_view] over it shows. *)
Definition sv (s : string) : string_view := list_byte_of_string s.

(** [std::string_view::substr(pos, count)], for [pos <= size()]. *)
Definition substr (s : string_view) (pos count : nat) : string_view :=
  firstn count (skipn pos s).

(** [std::string_view::substr(pos)], for [pos <= size()]. *)
Definition substr_from (s : string_view) (pos : nat) : string_view :=
  skipn pos s.

Definition empty (s : string_view) : bool :=
  match s with
  | [] => true
  | _ :: _ => false
  end.

(** ** Delimiter scanners *)

Module Scanner.

(** The loop [for (i; i < size; ++i) if (data[i] == delimiter) push_back(i)],
    started at offset [i] on the bytes from [i] on. *)
Fixpoint scan_bytes (delimiter : byte) (bytes : list byte) (i : nat)
    (positions : list nat) : list nat :=
  match bytes with
  | [] => positions
  | c :: rest =>
      scan_bytes delimiter rest (S i)
        (if Byte.eqb c delimiter then positions ++ [i] else positions)
  end.

Definition find_delimiters_scalar (data : string_view) (delimiter : byte)
    : list nat :=
  scan_bytes delimiter data 0 [].

Definition SIMD_WIDTH : nat := 64.

(** [_mm512_loadu_si512(ptr + pos)]: the 64 bytes from [pos] on. *)
Definition loadu (ptr : list byte) (pos : nat) : list byte :=
  firstn SIMD_WIDTH (skipn pos ptr).

(** [_mm512_cmpeq_epi8_mask(data_vec, _mm512_set1_epi8(delimiter))]: bit [j]
    of the mask is set exactly when lane [j] holds the delimiter. *)
Fixpoint cmpeq_epi8_mask (data_vec : list byte) (delimiter : byte) : Z :=
  match data_vec with
  | [] => 0
  | c :: rest =>
      Z.b2z (Byte.eqb c delimiter) + 2 * cmpeq_epi8_mask rest delimiter
  end.

Fixpoint pos_ctz (p : positive) : nat :=
  match p with
  | xO q => S (pos_ctz q)
  | _ => O
  end.

(** [__builtin_ctzll]; its result on 0 is undefined in C and never used. *)
Definition ctzll (mask : Z) : nat :=
  match mask with
  | Zpos p => pos_ctz p
  | _ => O
  end.

Definition wrap64 (z : Z) : Z := z mod 2 ^ 64.

(** The loop [while (match_mask != 0)]: one round per set bit, so the 64
    rounds of fuel given by the caller are never used up (see
    [extract_positions_chunk]). Returns the mask left and the positions. *)
Fixpoint extract_positions (fuel : nat) (match_mask : Z) (pos : nat)
    (positions : list nat) : Z * list nat :=
  match fuel with
  | O => (match_mask, positions)
  | S fuel' =>
      if match_mask =? 0 then (match_mask, positions)
      else
        let bit_pos := ctzll match_mask in
        extract_positions fuel'
          (Z.land match_mask (wrap64 (match_mask - 1)))
          pos (positions ++ [(pos + bit_pos)%nat])
  end.

(** The loop [for (; pos < simd_end; pos += SIMD_WIDTH)]. Returns the value
    of [pos] at exit and the positions collected. *)
Fixpoint simd_chunks (fuel : nat) (ptr : list byte) (delimiter : byte)
    (simd_end pos : nat) (positions : list nat) : nat * list nat :=
  match fuel with
  | O => (pos, positions)
  | S fuel' =>
      if (pos <? simd_end)%nat then
        let data_vec := loadu ptr pos in
        let match_mask := cmpeq_epi8_mask data_vec delimiter in
        let '(_, positions') :=
          extract_positions SIMD_WIDTH match_mask pos positions in
        simd_chunks fuel' ptr delimiter simd_end (pos + SIMD_WIDTH)%nat
          positions'
      else (pos, positions)
  end.

Definition find_delimiters_simd (data : string_view) (delimiter : byte)
    : list nat :=
  let size := List.length data in
  let simd_end := (size - size mod SIMD_WIDTH)%nat in
  let '(pos, positions) := simd_chunks size data delimiter simd_end 0 [] in
  (* Handle remaining bytes (< 64) with scalar code *)
  scan_bytes delimiter (skipn pos data) pos positions.

End Scanner.

(** ** Numeric converters *)

Module Numeric.

(** The value of a [char] (signed on the target): bytes from 0x80 on are
    negative. *)
Definition char_value (c : byte) : Z :=
  let n := Z.of_N (Byte.to_N c) in
  if n <? 128 then n else n - 256.

(** [c >= '0' && c <= '9'] *)
Definition is_digit (c : byte) : bool :=
  (char_value "0" <=? char_value c) && (char_value c <=? char_value "9").

(** [c - '0'] *)
Definition digit_of (c : byte) : Z := char_value c - char_value "0".

Definition INT32_MIN : Z := - 2 ^ 31.
Definition INT32_MAX : Z := 2 ^ 31 - 1.

(** Two's-complement reduction to [int32_t]. Signed overflow is undefined in
    C++; the embedding takes the wrap-around of the target. *)
Definition wrap32 (z : Z) : Z := (z + 2 ^ 31) mod 2 ^ 32 - 2 ^ 31.

(** Conversion to [uint32_t]. *)
Definition wrap_u32 (z : Z) : Z := z mod 2 ^ 32.

(** The run of decimal digits at the head of a text, and what follows it. *)
Fixpoint digit_run (bytes : list byte) : list byte * list byte :=
  match bytes with
  | [] => ([], [])
  | c :: rest =>
      if is_digit c then
        let '(ds, tl) := digit_run rest in (c :: ds, tl)
      else ([], bytes)
  end.

(** The unbounded value of a digit string. *)
Definition decimal_value (ds : list byte) : Z :=
  fold_left (fun acc c => acc * 10 + digit_of c) ds 0.

(** [std::from_chars(first, last, int32_t&)] of the C++17 standard library
    ([charconv.from.chars]), base 10: the longest prefix matching an optional
    ['-'] and at least one digit is converted; [None] stands for any
    [ec != std::errc()]: [invalid_argument] when no prefix matches,
    [result_out_of_range] when the value does not fit [int32_t]. In both
    error cases the output argument is left unmodified. No leading white
    space and no ['+'] is accepted. *)
Definition from_chars_int32 (str : string_view) : option Z :=
  let '(negative, body) :=
    match str with
    | c :: rest => if Byte.eqb c "-" then (true, rest) else (false, str)
    | [] => (false, str)
    end in
  match fst (digit_run body) with
  | [] => None
  | ds =>
      let v := if negative : bool then - decimal_value ds
               else decimal_value ds in
      if (INT32_MIN <=? v) && (v <=? INT32_MAX) then Some v else None
  end.

(** The fallback loop of [parse_int]:
    [for (; i < size; ++i) if digit: result = result * 10 + (str[i] - '0');
     else break]. *)
Fixpoint accumulate_digits (bytes : list byte) (result : Z) : Z :=
  match bytes with
  | [] => result
  | c :: rest =>
      if is_digit c then
        accumulate_digits rest (wrap32 (result * 10 + digit_of c))
      else result
  end.

(** [!str.empty() && str[0] == '-'] with the index [i] it sets: the flag and
    the bytes from [i] on. *)
Definition leading_minus (str : string_view) : bool * list byte :=
  match str with
  | c :: rest => if Byte.eqb c "-" then (true, rest) else (false, str)
  | [] => (false, str)
  end.

Definition parse_int (str : string_view) : Z :=
  match from_chars_int32 str with
  | Some result => result
  | None =>
      (* Fallback: manual parsing *)
      let '(negative, bytes) := leading_minus str in
      let result := accumulate_digits bytes 0 in
      if negative then wrap32 (- result) else result
  end.

(** [(double)(str[i] - '0')] *)
Definition double_of_digit (c : byte) : float :=
  PrimFloat.of_uint63 (Uint63.of_Z (digit_of c)).

(** The integer-part loop of [parse_double]:
    [for (; i < size && str[i] != '.'; ++i) if digit: accumulate]; a byte that
    is neither a digit nor ['.'] is stepped over. Returns the accumulated
    value and the bytes from the exit index on. *)
Fixpoint integer_part_loop (bytes : list byte) (integer_part : float)
    : float * list byte :=
  match bytes with
  | [] => (integer_part, [])
  | c :: rest =>
      if Byte.eqb c "." then (integer_part, bytes)
      else
        integer_part_loop rest
          (if is_digit c then
             (integer_part * 10 + double_of_digit c)%float
           else integer_part)
  end.

(** The fractional-part loop of [parse_double]:
    [for (; i < size; ++i) if digit: fractional_part += digit / divisor;
     divisor *= 10.0; else break]. *)
Fixpoint fractional_part_loop (bytes : list byte)
    (fractional_part divisor : float) : float :=
  match bytes with
  | [] => fractional_part
  | c :: rest =>
      if is_digit c then
        fractional_part_loop rest
          (fractional_part + double_of_digit c / divisor)%float
          (divisor * 10)%float
      else fractional_part
  end.

(** The manual path of [parse_double] (from the comment "Manual parsing for
    typical FIX prices" on). *)
Definition parse_double_manual (str : string_view) : float :=
  let '(negative, bytes) := leading_minus str in
  let '(integer_part, bytes') := integer_part_loop bytes 0%float in
  let fractional_part :=
    match bytes' with
    | c :: after =>
        if Byte.eqb c "." then fractional_part_loop after 0%float 10%float
        else 0%float
    | [] => 0%float
    end in
  let result := (integer_part + fractional_part)%float in
  if negative then (- result)%float else result.

Section Platform.

(** Whether [__cpp_lib_to_chars] is defined when the file is compiled. *)
Variable cpp_lib_to_chars : bool.

(** [std::from_chars(first, last, double&)] of the platform's standard
    library: [Some r] when it reports [ec == std::errc()] having stored
    [r], [None] on any error. *)
Variable from_chars_double : string_view -> option float.

Definition parse_double (str : string_view) : float :=
  if cpp_lib_to_chars then
    match from_chars_double str with
    | Some result => result
    | None => parse_double_manual str
    end
  else parse_double_manual str.

End Platform.

(** A build without the floating-point [std::from_chars]: the macro is
    undefined and the conversion is never consulted. *)
Definition no_from_chars_double : string_view -> option float :=
  fun _ => None.

End Numeric.

(** ** Output record *)

Record FIXMessage : Type := mkFIXMessage {
  message_type : string_view;  (* Tag 35 *)
  symbol : string_view;        (* Tag 55 *)
  sender : string_view;        (* Tag 49 *)
  target : string_view;        (* Tag 56 *)
  side : Z;                    (* Tag 54, int32_t *)
  price : float;               (* Tag 44 *)
  quantity : Z;                (* Tag 38, int32_t *)
  valid : bool
}.

(** Assignments to one member of the record. *)
Definition set_message_type (m : FIXMessage) (v : string_view) : FIXMessage :=
  mkFIXMessage v (symbol m) (sender m) (target m) (side m) (price m)
    (quantity m) (valid m).
Definition set_symbol (m : FIXMessage) (v : string_view) : FIXMessage :=
  mkFIXMessage (message_type m) v (sender m) (target m) (side m) (price m)
    (quantity m) (valid m).
Definition set_sender (m : FIXMessage) (v : string_view) : FIXMessage :=
  mkFIXMessage (message_type m) (symbol m) v (target m) (side m) (price m)
    (quantity m) (valid m).
Definition set_target (m : FIXMessage) (v : string_view) : FIXMessage :=
  mkFIXMessage (message_type m) (symbol m) (sender m) v (side m) (price m)
    (quantity m) (valid m).
Definition set_side (m : FIXMessage) (v : Z) : FIXMessage :=
  mkFIXMessage (message_type m) (symbol m) (sender m) (target m) v (price m)
    (quantity m) (valid m).
Definition set_price (m : FIXMessage) (v : float) : FIXMessage :=
  mkFIXMessage (message_type m) (symbol m) (sender m) (target m) (side m) v
    (quantity m) (valid m).
Definition set_quantity (m : FIXMessage) (v : Z) : FIXMessage :=
  mkFIXMessage (message_type m) (symbol m) (sender m) (target m) (side m)
    (price m) v (valid m).
Definition set_valid (m : FIXMessage) (v : bool) : FIXMessage :=
  mkFIXMessage (message_type m) (symbol m) (sender m) (target m) (side m)
    (price m) (quantity m) v.

(** The constructor [FIXMessage()]: empty views, zero numbers, not valid. *)
Definition default_message : FIXMessage :=
  mkFIXMessage [] [] [] [] 0 0%float 0 false.

(** [enum class FIXTag : uint32_t] *)
Module FIXTag.
Definition BeginString : Z := 8.
Definition BodyLength : Z := 9.
Definition MessageType : Z := 35.
Definition SenderCompID : Z := 49.
Definition TargetCompID : Z := 56.
Definition Side : Z := 54.
Definition Symbol : Z := 55.
Definition OrderQty : Z := 38.
Definition Price : Z := 44.
End FIXTag.

(** ** Field tokenizer, record builder and entry points *)

Module Parser.

Import Scanner Numeric.

(** [std::string_view::find(ch)]; [None] is [npos]. *)
Fixpoint find (s : string_view) (ch : byte) : option nat :=
  match s with
  | [] => None
  | c :: rest =>
      if Byte.eqb c ch then Some O
      else option_map S (find rest ch)
  end.

(** [split_field]: [None] is the [false] return, [Some (tag, value)] the
    [true] return with both output parameters. *)
Definition split_field (field : string_view) : option (Z * string_view) :=
  match find field "=" with
  | None => None
  | Some O => None
  | Some eq_pos =>
      let tag_str := substr field 0 eq_pos in
      let tag := wrap_u32 (parse_int tag_str) in
      let value := substr_from field (eq_pos + 1) in
      Some (tag, value)
  end.

Section Platform.

Variable cpp_lib_to_chars : bool.
Variable from_chars_double : string_view -> option float.

Definition populate_message (msg : FIXMessage) (tag : Z)
    (value : string_view) : FIXMessage :=
  if tag =? FIXTag.MessageType then set_message_type msg value
  else if tag =? FIXTag.Symbol then set_symbol msg value
  else if tag =? FIXTag.SenderCompID then set_sender msg value
  else if tag =? FIXTag.TargetCompID then set_target msg value
  else if tag =? FIXTag.Side then set_side msg (parse_int value)
  else if tag =? FIXTag.Price then
    set_price msg (parse_double cpp_lib_to_chars from_chars_double value)
  else if tag =? FIXTag.OrderQty then set_quantity msg (parse_int value)
  else (* Ignore unknown tags *) msg.

(** What both parsers do with one field:
    [if (split_field(field, tag, value)) populate_message(result, tag, value)]. *)
Definition process_field (result : FIXMessage) (field : string_view)
    : FIXMessage :=
  match split_field field with
  | Some (tag, value) => populate_message result tag value
  | None => result
  end.

(** The loop [for (size_t delim_pos : delimiters)]; returns [start] and
    [result] as the loop leaves them. *)
Fixpoint delimiter_loop (message : string_view) (delimiters : list nat)
    (start : nat) (result : FIXMessage) : nat * FIXMessage :=
  match delimiters with
  | [] => (start, result)
  | delim_pos :: rest =>
      let result' :=
        if (start <? delim_pos)%nat then
          process_field result (substr message start (delim_pos - start))
        else result in
      delimiter_loop message rest (delim_pos + 1)%nat result'
  end.

(** [result.valid = !result.message_type.empty() && !result.symbol.empty()] *)
Definition validate (result : FIXMessage) : FIXMessage :=
  set_valid result
    (negb (empty (message_type result)) && negb (empty (symbol result))).

(** The text of [parse_scalar] and [parse_simd] after the scanner call,
    which is the same in both. *)
Definition parse_fields (message : string_view) (delimiters : list nat)
    : FIXMessage :=
  let '(start, result) :=
    delimiter_loop message delimiters 0 default_message in
  (* Handle last field if message doesn't end with delimiter *)
  let result' :=
    if (start <? List.length message)%nat then
      process_field result (substr_from message start)
    else result in
  (* Validate that we got essential fields *)
  validate result'.

Definition parse_scalar (message : string_view) : FIXMessage :=
  if empty message then default_message
  else parse_fields message (find_delimiters_scalar message "|").

Definition parse_simd (message : string_view) : FIXMessage :=
  if empty message then default_message
  else parse_fields message (find_delimiters_simd message "|").

(** [parse_auto], with the cached result of [has_avx512_support()] as an
    argument. *)
Definition parse_auto (avx512_available : bool) (message : string_view)
    : FIXMessage :=
  if avx512_available then parse_simd message else parse_scalar message.

End Platform.

End Parser.

Import Scanner Numeric Parser.

(** * Vocabulary of the specification *)

Module Spec.

(** A position list is strictly ascending when every element is below all
    the later ones. *)
Definition strictly_ascending (positions : list nat) : Prop :=
  StronglySorted lt positions.

(** Every position is an index into a buffer of [size] bytes. *)
Definition in_bounds (size : nat) (positions : list nat) : Prop :=
  Forall (fun p => (p < size)%nat) positions.

(** The fields the tokenizing loop hands to [split_field], in order: the
    loop of [delimiter_loop] and the last-field test of [parse_fields], with
    the field recorded where the code processes it. *)
Fixpoint fields_seen (message : string_view) (delimiters : list nat)
    (start : nat) : list string_view :=
  match delimiters with
  | [] =>
      if (start <? List.length message)%nat then [substr_from message start]
      else []
  | delim_pos :: rest =>
      (if (start <? delim_pos)%nat then
         [substr message start (delim_pos - start)]
       else [])
      ++ fields_seen message rest (delim_pos + 1)%nat
  end.

Definition fields_scalar (message : string_view) : list string_view :=
  fields_seen message (find_delimiters_scalar message "|") 0.

Definition fields_simd (message : string_view) : list string_view :=
  fields_seen message (find_delimiters_simd message "|") 0.

(** The slices of a text between consecutive delimiters, the one before the
    first and the one after the last included, empty ones too; [cur] is the
    slice being read. *)
Fixpoint split_at (delimiter : byte) (text cur : list byte)
    : list (list byte) :=
  match text with
  | [] => [cur]
  | c :: rest =>
      if Byte.eqb c delimiter then cur :: split_at delimiter rest []
      else split_at delimiter rest (cur ++ [c])
  end.

(** The tokenizer as the specification words it: slice between boundaries,
    skip every slice of zero length. *)
Definition tokens (text : string_view) : list string_view :=
  filter (fun f => negb (empty f)) (split_at "|" text []).

(** A text without the field delimiter. *)
Definition delimiter_free (text : string_view) : bool :=
  forallb (fun c => negb (Byte.eqb c "|")) text.

(** The key/value pairs of a message, in input order: the accepted fields
    split at their first ['=']. *)
Definition key_value_pairs (message : string_view)
    : list (Z * string_view) :=
  flat_map
    (fun f => match split_field f with Some kv => [kv] | None => [] end)
    (tokens message).

(** A field [split_field] refuses: no ['='], or ['='] as first byte. *)
Definition malformed (field : string_view) : bool :=
  negb (existsb (fun c => Byte.eqb c "=") field)
  || match field with
     | c :: _ => Byte.eqb c "="
     | [] => false
     end.

(** What a slot of the record holds. *)
Inductive slot_value : Type :=
  | Text (s : string_view)
  | Int (z : Z)
  | Real (f : float).

(** The slot a recognized key is mapped onto; [None] for any other key. *)
Definition slot (tag : Z) (msg : FIXMessage) : option slot_value :=
  if tag =? FIXTag.MessageType then Some (Text (message_type msg))
  else if tag =? FIXTag.Symbol then Some (Text (symbol msg))
  else if tag =? FIXTag.SenderCompID then Some (Text (sender msg))
  else if tag =? FIXTag.TargetCompID then Some (Text (target msg))
  else if tag =? FIXTag.Side then Some (Int (side msg))
  else if tag =? FIXTag.Price then Some (Real (price msg))
  else if tag =? FIXTag.OrderQty then Some (Int (quantity msg))
  else None.

(** A text with no valid leading digits: empty, a lone ['-'], or one whose
    first byte after an optional ['-'] is not a decimal digit. *)
Definition no_leading_digits (str : string_view) : bool :=
  match str with
  | [] => true
  | c :: rest =>
      if Byte.eqb c "-" then
        match rest with
        | [] => true
        | c' :: _ => negb (is_digit c')
        end
      else negb (is_digit c)
  end.

Section PlatformVocabulary.

Variable cpp_lib_to_chars : bool.
Variable from_chars_double : string_view -> option float.

(** All pairs applied to a record, first to last. *)
Definition apply_pairs (pairs : list (Z * string_view)) (msg : FIXMessage)
    : FIXMessage :=
  fold_left
    (fun r kv =>
       populate_message cpp_lib_to_chars from_chars_double r
         (fst kv) (snd kv))
    pairs msg.

(** What writing [value] under a recognized key stores in its slot. *)
Definition stored (tag : Z) (value : string_view) : option slot_value :=
  if tag =? FIXTag.MessageType then Some (Text value)
  else if tag =? FIXTag.Symbol then Some (Text value)
  else if tag =? FIXTag.SenderCompID then Some (Text value)
  else if tag =? FIXTag.TargetCompID then Some (Text value)
  else if tag =? FIXTag.Side then Some (Int (parse_int value))
  else if tag =? FIXTag.Price then
    Some (Real (parse_double cpp_lib_to_chars from_chars_double value))
  else if tag =? FIXTag.OrderQty then Some (Int (parse_int value))
  else None.

End PlatformVocabulary.

(** The keys [populate_message] has a case for. *)
Definition recognized (tag : Z) : bool :=
  (tag =? FIXTag.MessageType) || (tag =? FIXTag.Symbol)
  || (tag =? FIXTag.SenderCompID) || (tag =? FIXTag.TargetCompID)
  || (tag =? FIXTag.Side) || (tag =? FIXTag.Price)
  || (tag =? FIXTag.OrderQty).

(** The value of the last pair carrying the key [tag], if there is one. *)
Fixpoint last_value (tag : Z) (pairs : list (Z * string_view))
    : option string_view :=
  match pairs with
  | [] => None
  | (k, v) :: rest =>
      match last_value tag rest with
      | Some v' => Some v'
      | None => if k =? tag then Some v else None
      end
  end.

(** The key a field is filed under, when [split_field] accepts it. *)
Definition field_key (field : string_view) : option Z :=
  option_map fst (split_field field).

(** [s] is a contiguous slice of [text]. *)
Definition slice_of (s text : string_view) : Prop :=
  exists before after, text = before ++ s ++ after.

(** How many bytes of [s] are the byte [d]. *)
Definition count_byte (d : byte) (s : string_view) : nat :=
  List.length (filter (fun c => Byte.eqb c d) s).

(** The four text slots of a record. *)
Definition text_slots (msg : FIXMessage) : list string_view :=
  [message_type msg; symbol msg; sender msg; target msg].

End Spec.

Import Spec.

(** * Further code of the repository *)

(** ** Capability detection *)

Module Capability.

(** The four registers [__get_cpuid] fills, each a [uint32_t]. *)
Record cpuid_regs : Type := mk_cpuid_regs {
  eax : Z;
  ebx : Z;
  ecx : Z;
  edx : Z
}.

(** [has_avx512_support] as a function of what the hardware answers:
    [leaf1] and [leaf7] are the results of [__get_cpuid(1, ...)] and
    [__get_cpuid_count(7, 0, ...)], [None] when the call returns 0;
    [xcr0_lo] is the low half [xgetbv] leaves in [eax]. *)
Definition has_avx512_support (leaf1 leaf7 : option cpuid_regs)
    (xcr0_lo : Z) : bool :=
  match leaf1 with
  | None => false
  | Some r1 =>
      (* Check for OSXSAVE (bit 27 of ECX) *)
      if Z.land (ecx r1) (Z.shiftl 1 27) =? 0 then false
      else
        match leaf7 with
        | None => false
        | Some r7 =>
            let has_avx512f := negb (Z.land (ebx r7) (Z.shiftl 1 16) =? 0) in
            let has_avx512bw := negb (Z.land (ebx r7) (Z.shiftl 1 30) =? 0) in
            let os_supports_avx512 := Z.land xcr0_lo 230 =? 230 in
            has_avx512f && has_avx512bw && os_supports_avx512
        end
  end.

End Capability.

(** ** The manual path of [parse_int] on its own *)

Module Fallback.

Import Numeric.

(** The text of [parse_int] from the comment "Fallback: manual parsing" on,
    as [parse_int] runs it when [std::from_chars] reports an error. *)
Definition parse_int_manual (str : string_view) : Z :=
  let '(negative, bytes) := leading_minus str in
  let result := accumulate_digits bytes 0 in
  if negative then wrap32 (- result) else result.

End Fallback.

(** ** Generators of the test data *)

Module TestData.

(** The loop [for (i = 0; i < repeat_count; ++i) msg += base]. *)
Fixpoint append_copies (repeat_count : nat) (msg base : string_view)
    : string_view :=
  match repeat_count with
  | O => msg
  | S n => append_copies n (msg ++ base) base
  end.

(** [test_data::invalid::generate_long_message] *)
Definition generate_long_message (repeat_count : nat) : string_view :=
  let msg := sv "8=FIX.4.4|35=D|55=TEST|54=1|38=100|44=50.00|" in
  let base := msg in
  append_copies repeat_count msg base.

(** The loop of [generate_test_string]: [todo] rounds are left, [i] is the
    index, [delims_placed] the counter. *)
Fixpoint fill_segments (todo i delimiter_count segment_len delims_placed : nat)
    (delim : byte) (result : string_view) : string_view :=
  match todo with
  | O => result
  | S todo' =>
      if (delims_placed <? delimiter_count)%nat && (0 <? i)%nat
         && (i mod segment_len =? 0)%nat
      then
        fill_segments todo' (S i) delimiter_count segment_len
          (S delims_placed) delim (result ++ [delim])
      else
        fill_segments todo' (S i) delimiter_count segment_len
          delims_placed delim (result ++ ["X"%byte])
  end.

(** [test_data::delimiters::generate_test_string], for a
    [delimiter_count] below [SIZE_MAX] (so that [delimiter_count + 1] does
    not wrap to 0). *)
Definition generate_test_string (length delimiter_count : nat) (delim : byte)
    : string_view :=
  if (length =? 0)%nat then []
  else if (delimiter_count =? 0)%nat then repeat "X"%byte length
  else
    let segment_len := (length / (delimiter_count + 1))%nat in
    let segment_len := if (segment_len =? 0)%nat then 1%nat else segment_len in
    fill_segments length 0 delimiter_count segment_len 0 delim [].

(** [std::to_string(int)] on a value that is not negative: its decimal
    digits, as the standard library prints them. *)
Definition to_string (n : nat) : string_view :=
  list_byte_of_string (NilZero.string_of_uint (Nat.to_uint n)).

Definition symbols : list string_view :=
  [sv "AAPL"; sv "MSFT"; sv "GOOGL"; sv "AMZN"; sv "META"].

Definition prices : list float :=
  (* 178.45 is the double nearest to it, written out exactly *)
  [150.25; 378.50; 141.75; 0x1.64e6666666666p+7; 505.25]%float.

Section Formatting.

(** [std::to_string(double)] of the platform's standard library. *)
Variable to_string_double : float -> string_view.

(** The body of the loop of [generate_message_batch] for index [i]: the
    message it builds. *)
Definition batch_message (i : nat) : string_view :=
  let idx := (i mod 5)%nat in
  let side := (i mod 2 + 1)%nat in
  let qty := ((i mod 10 + 1) * 100)%nat in
  sv "8=FIX.4.4|35=D|49=TEST|56=EXCH|55="
  ++ nth idx symbols []
  ++ sv "|54="
  ++ to_string side
  ++ sv "|38="
  ++ to_string qty
  ++ sv "|44="
  ++ to_string_double (nth idx prices 0%float)
  ++ sv "|".

(** The loop [for (i = 0; i < count; ++i) messages.push_back(msg)]. *)
Fixpoint batch_loop (todo i : nat) (messages : list string_view)
    : list string_view :=
  match todo with
  | O => messages
  | S todo' => batch_loop todo' (S i) (messages ++ [batch_message i])
  end.

(** [test_data::generate_message_batch] *)
Definition generate_message_batch (count : nat) : list string_view :=
  batch_loop count 0 [].

End Formatting.

End TestData.

(** * Properties of the delimiter scanners *)

Section ScannerFacts.

Variable delimiter : byte.

Lemma scan_bytes_acc (bytes : list byte) :
  forall i positions,
    scan_bytes delimiter bytes i positions
    = positions ++ scan_bytes delimiter bytes i [].
Proof.
  induction bytes as [|c rest IH]; intros i positions; simpl.
  - now rewrite app_nil_r.
  - destruct (Byte.eqb c delimiter).
    + rewrite (IH (S i) (positions ++ [i])), (IH (S i) [i]).
      now rewrite <- app_assoc.
    + apply IH.
Qed.

Lemma scan_bytes_app (l1 l2 : list byte) :
  forall i positions,
    scan_bytes delimiter (l1 ++ l2) i positions
    = scan_bytes delimiter l2 (i + List.length l1)%nat
        (scan_bytes delimiter l1 i positions).
Proof.
  induction l1 as [|c rest IH]; intros i positions; simpl.
  - now rewrite Nat.add_0_r.
  - rewrite IH. f_equal. lia.
Qed.

Lemma cmpeq_epi8_mask_range (l : list byte) :
  0 <= cmpeq_epi8_mask l delimiter < 2 ^ Z.of_nat (List.length l).
Proof.
  induction l as [|c rest IH].
  - simpl. lia.
  - cbn [cmpeq_epi8_mask List.length].
    rewrite Nat2Z.inj_succ, Z.pow_succ_r by lia.
    destruct (Byte.eqb c delimiter); simpl Z.b2z; lia.
Qed.

(** The lowest set bit of [2^k * (2 M + 1)] is bit [k] ... *)
Lemma ctzll_lowest (k : nat) (M : Z) :
  0 <= M -> ctzll (2 ^ Z.of_nat k * (1 + 2 * M)) = k.
Proof.
  intros HM. induction k as [|k IH].
  - simpl Z.of_nat. rewrite Z.pow_0_r, Z.mul_1_l.
    destruct M as [|p|p]; try lia; reflexivity.
  - rewrite Nat2Z.inj_succ, Z.pow_succ_r, <- Z.mul_assoc by lia.
    remember (2 ^ Z.of_nat k * (1 + 2 * M)) as m eqn:Em.
    assert (Hm : 0 < m) by (subst m; apply Z.mul_pos_pos; lia).
    destruct m as [|p|p]; try lia.
    simpl. now f_equal.
Qed.

Lemma land_odd_pred (M : Z) : Z.land (1 + 2 * M) (2 * M) = 2 * M.
Proof.
  apply Z.bits_inj'. intros n Hn. rewrite Z.land_spec.
  destruct (Z.eq_dec n 0) as [->|Hn0].
  - rewrite (Z.add_comm 1), Z.testbit_odd_0, Z.testbit_even_0. reflexivity.
  - replace n with (Z.succ (n - 1)) by lia.
    rewrite (Z.add_comm 1), Z.testbit_odd_succ, Z.testbit_even_succ by lia.
    apply andb_diag.
Qed.

Lemma land_double_pred (m : Z) :
  Z.land (2 * m) (2 * m - 1) = 2 * Z.land m (m - 1).
Proof.
  replace (2 * m - 1) with (2 * (m - 1) + 1) by lia.
  apply Z.bits_inj'. intros n Hn. rewrite Z.land_spec.
  destruct (Z.eq_dec n 0) as [->|Hn0].
  - now rewrite !Z.testbit_even_0.
  - replace n with (Z.succ (n - 1)) by lia.
    rewrite Z.testbit_odd_succ, !Z.testbit_even_succ by lia.
    now rewrite Z.land_spec.
Qed.

(** ... and [mask & (mask - 1)] clears exactly that bit. *)
Lemma land_clear_lowest (k : nat) (M : Z) :
  let m := 2 ^ Z.of_nat k * (1 + 2 * M) in
  Z.land m (m - 1) = 2 ^ Z.of_nat (S k) * M.
Proof.
  induction k as [|k IH]; cbv zeta in *.
  - simpl Z.of_nat. rewrite Z.pow_0_r, Z.pow_1_r, Z.mul_1_l.
    replace (1 + 2 * M - 1) with (2 * M) by lia. apply land_odd_pred.
  - rewrite (Nat2Z.inj_succ (S k)), (Z.pow_succ_r _ (Z.of_nat (S k))) by lia.
    rewrite <- Z.mul_assoc, <- IH.
    rewrite Nat2Z.inj_succ, Z.pow_succ_r, <- Z.mul_assoc by lia.
    apply land_double_pred.
Qed.

(** The bit-extraction loop on the mask of the lanes [l], shifted to lane
    [k], leaves no bit and yields what the scalar loop yields on [l]. *)
Lemma extract_positions_lanes (l : list byte) :
  forall (k fuel pos : nat) positions,
    (List.length l <= fuel)%nat ->
    (k + List.length l <= 64)%nat ->
    extract_positions fuel
      (2 ^ Z.of_nat k * cmpeq_epi8_mask l delimiter) pos positions
    = (0, scan_bytes delimiter l (pos + k)%nat positions).
Proof.
  induction l as [|c rest IH]; intros k fuel pos positions Hfuel Hk.
  - cbn [cmpeq_epi8_mask scan_bytes]. rewrite Z.mul_0_r.
    destruct fuel; reflexivity.
  - cbn [List.length] in Hfuel, Hk.
    cbn [cmpeq_epi8_mask scan_bytes].
    pose proof (cmpeq_epi8_mask_range rest) as HM.
    set (M := cmpeq_epi8_mask rest delimiter) in *.
    destruct (Byte.eqb c delimiter); cbn [Z.b2z].
    + destruct fuel as [|fuel']; [lia|].
      pose proof (ctzll_lowest k M (proj1 HM)) as Hctz.
      pose proof (land_clear_lowest k M) as Hland. cbv zeta in Hland.
      set (m := 2 ^ Z.of_nat k * (1 + 2 * M)) in *.
      assert (Hm : 0 < m < 2 ^ 64).
      { subst m. split; [apply Z.mul_pos_pos; lia|].
        apply Z.lt_le_trans
          with (2 ^ Z.of_nat k * 2 ^ Z.of_nat (S (List.length rest))).
        - apply Z.mul_lt_mono_pos_l; [lia|].
          rewrite Nat2Z.inj_succ, Z.pow_succ_r by lia. lia.
        - rewrite <- Z.pow_add_r by lia.
          apply Z.pow_le_mono_r; lia. }
      cbn [extract_positions].
      destruct (Z.eqb_spec m 0) as [E|_]; [lia|].
      unfold wrap64. rewrite (Z.mod_small (m - 1)) by lia.
      rewrite Hctz, Hland.
      rewrite (IH (S k) fuel' pos) by lia.
      now rewrite Nat.add_succ_r.
    + replace (2 ^ Z.of_nat k * (0 + 2 * M))
        with (2 ^ Z.of_nat (S k) * M)
        by (rewrite Nat2Z.inj_succ, Z.pow_succ_r by lia; ring).
      rewrite (IH (S k) fuel pos) by lia.
      now rewrite Nat.add_succ_r.
Qed.

(** One full chunk: 64 rounds are enough, the mask is used up, and the
    positions are those of the scalar loop over the chunk. *)
Lemma extract_positions_chunk (data_vec : list byte) (pos : nat) positions :
  List.length data_vec = SIMD_WIDTH ->
  extract_positions SIMD_WIDTH (cmpeq_epi8_mask data_vec delimiter)
    pos positions
  = (0, scan_bytes delimiter data_vec pos positions).
Proof.
  intros Hlen.
  pose proof (extract_positions_lanes data_vec 0 SIMD_WIDTH pos positions)
    as H.
  rewrite Hlen in H. change (2 ^ Z.of_nat 0) with 1 in H.
  rewrite Z.mul_1_l, Nat.add_0_r in H. apply H; unfold SIMD_WIDTH; lia.
Qed.

Lemma firstn_plus {A} (a b : nat) (l : list A) :
  firstn (a + b) l = firstn a l ++ firstn b (skipn a l).
Proof.
  revert l. induction a as [|a IH]; intros l; [reflexivity|].
  destruct l as [|x l]; simpl.
  - now rewrite firstn_nil.
  - now rewrite IH.
Qed.

(** The chunk loop leaves by its guard, at [simd_end], with the positions
    of the scalar loop over the bytes it covered. *)
Lemma simd_chunks_scan (data : list byte) (simd_end : nat) :
  forall (fuel n pos : nat) positions,
    simd_end = (pos + SIMD_WIDTH * n)%nat ->
    (simd_end <= List.length data)%nat ->
    (n <= fuel)%nat ->
    simd_chunks fuel data delimiter simd_end pos positions
    = (simd_end,
       scan_bytes delimiter (firstn (SIMD_WIDTH * n) (skipn pos data))
         pos positions).
Proof.
  induction fuel as [|fuel IH]; intros n pos positions Hend Hlen Hn.
  - assert (n = 0%nat) by lia. subst n.
    rewrite Nat.mul_0_r, Nat.add_0_r in Hend. subst simd_end.
    reflexivity.
  - cbn [simd_chunks].
    destruct (Nat.ltb_spec pos simd_end) as [Hlt|Hge].
    + destruct n as [|n]; [lia|].
      assert (Hchunk : List.length (loadu data pos) = SIMD_WIDTH).
      { unfold loadu. rewrite length_firstn, length_skipn. lia. }
      rewrite (extract_positions_chunk _ pos positions Hchunk).
      rewrite (IH n (pos + SIMD_WIDTH)%nat) by lia.
      f_equal.
      replace (SIMD_WIDTH * S n)%nat with (SIMD_WIDTH + SIMD_WIDTH * n)%nat
        by lia.
      rewrite firstn_plus, scan_bytes_app, skipn_skipn.
      fold (loadu data pos). rewrite Hchunk.
      now rewrite (Nat.add_comm SIMD_WIDTH pos).
    + assert (n = 0%nat) by (unfold SIMD_WIDTH in *; lia). subst n.
      rewrite Nat.mul_0_r, Nat.add_0_r in Hend. subst simd_end.
      reflexivity.
Qed.

(** The vectorized scanner computes the scalar scanner's list. *)
Lemma simd_is_scalar (data : string_view) :
  find_delimiters_simd data delimiter
  = find_delimiters_scalar data delimiter.
Proof.
  unfold find_delimiters_simd, find_delimiters_scalar.
  set (size := List.length data).
  set (simd_end := (size - size mod SIMD_WIDTH)%nat).
  assert (Hdiv : simd_end = (0 + SIMD_WIDTH * (size / SIMD_WIDTH))%nat).
  { subst simd_end.
    pose proof (Nat.div_mod_eq size SIMD_WIDTH). lia. }
  assert (Hle : (simd_end <= size)%nat) by (subst simd_end; lia).
  assert (Hfuel : (size / SIMD_WIDTH <= size)%nat).
  { apply Nat.Div0.div_le_upper_bound; unfold SIMD_WIDTH; lia. }
  rewrite (simd_chunks_scan data simd_end size (size / SIMD_WIDTH) 0 []
             Hdiv Hle Hfuel).
  simpl skipn at 2.
  replace (SIMD_WIDTH * (size / SIMD_WIDTH))%nat with simd_end by lia.
  rewrite <- (firstn_skipn simd_end data) at 3.
  rewrite scan_bytes_app, length_firstn, Nat.min_l by exact Hle.
  reflexivity.
Qed.

Lemma scan_bytes_cons (c : byte) (rest : list byte) (i : nat) :
  scan_bytes delimiter (c :: rest) i []
  = (if Byte.eqb c delimiter then [i] else [])
    ++ scan_bytes delimiter rest (S i) [].
Proof.
  cbn [scan_bytes]. destruct (Byte.eqb c delimiter); [|reflexivity].
  apply scan_bytes_acc.
Qed.

Lemma scan_bytes_bounds (bytes : list byte) :
  forall i,
    Forall (fun p => (i <= p < i + List.length bytes)%nat)
      (scan_bytes delimiter bytes i []).
Proof.
  induction bytes as [|c rest IH]; intros i.
  - constructor.
  - rewrite scan_bytes_cons. cbn [List.length].
    apply Forall_app. split.
    + destruct (Byte.eqb c delimiter); repeat constructor; lia.
    + eapply Forall_impl; [|apply (IH (S i))].
      cbv beta. intros p Hp. lia.
Qed.

Lemma scan_bytes_ascending (bytes : list byte) :
  forall i, StronglySorted lt (scan_bytes delimiter bytes i []).
Proof.
  induction bytes as [|c rest IH]; intros i.
  - constructor.
  - rewrite scan_bytes_cons.
    destruct (Byte.eqb c delimiter); cbn [app]; [|apply IH].
    constructor; [apply IH|].
    eapply Forall_impl; [|apply (scan_bytes_bounds rest (S i))].
    cbv beta. intros p Hp. lia.
Qed.

End ScannerFacts.

(** C1. For every input buffer and every delimiter byte the scalar and the
    vectorized scanner return the same position list; this covers the empty
    input, inputs shorter than one 64-byte chunk, of exactly one chunk, and of
    several chunks and a remainder. *)
Theorem scanner_equivalence (data : string_view) (delimiter : byte) :
  find_delimiters_scalar data delimiter = find_delimiters_simd data delimiter.
Proof.
  symmetry. apply simd_is_scalar.
Qed.

(** C9. For every input and delimiter, the list either scanner returns is
    strictly ascending and each of its positions is below the input length. *)
Theorem scanner_positions_ascending_in_bounds
    (data : string_view) (delimiter : byte) :
  (strictly_ascending (find_delimiters_scalar data delimiter)
   /\ in_bounds (List.length data) (find_delimiters_scalar data delimiter))
  /\ (strictly_ascending (find_delimiters_simd data delimiter)
      /\ in_bounds (List.length data) (find_delimiters_simd data delimiter)).
Proof.
  rewrite simd_is_scalar.
  assert (H : strictly_ascending (find_delimiters_scalar data delimiter)
              /\ in_bounds (List.length data)
                   (find_delimiters_scalar data delimiter)).
  { split.
    - apply scan_bytes_ascending.
    - eapply Forall_impl; [|apply (scan_bytes_bounds delimiter data 0)].
      cbv beta. intros p Hp. lia. }
  split; exact H.
Qed.

(** * Properties of the tokenizer *)

Lemma skipn_nonempty_ltb {A} (n : nat) (l : list A) :
  negb (match skipn n l with [] => true | _ :: _ => false end)
  = (n <? List.length l)%nat.
Proof.
  pose proof (length_skipn n l) as Hlen.
  destruct (skipn n l) as [|x tl]; cbn [List.length negb] in *;
    symmetry; [apply Nat.ltb_ge | apply Nat.ltb_lt]; lia.
Qed.

Lemma substr_prefix_tail (pre rest : list byte) (start : nat) :
  (start <= List.length pre)%nat ->
  substr (pre ++ rest) start (List.length pre - start) = skipn start pre.
Proof.
  intros Hle. unfold substr.
  rewrite skipn_app.
  replace (start - List.length pre)%nat with 0%nat by lia.
  cbn [skipn]. rewrite firstn_app, length_skipn, Nat.sub_diag.
  cbn [firstn]. rewrite app_nil_r.
  apply firstn_all2. rewrite length_skipn. lia.
Qed.

(** On the positions the scalar scanner finds, the loop hands over exactly
    the non-empty slices between delimiters. The statement is the loop
    invariant: [pre] is what has been scanned, [start] where the current
    slice began. *)
Lemma fields_seen_split_at (l : list byte) :
  forall (pre : list byte) (start : nat),
    (start <= List.length pre)%nat ->
    fields_seen (pre ++ l) (scan_bytes "|" l (List.length pre) []) start
    = filter (fun f => negb (empty f)) (split_at "|" l (skipn start pre)).
Proof.
  induction l as [|c rest IH]; intros pre start Hle.
  - cbn [scan_bytes fields_seen split_at filter]. rewrite app_nil_r.
    unfold substr_from, empty.
    rewrite skipn_nonempty_ltb.
    destruct (start <? List.length pre)%nat; reflexivity.
  - rewrite scan_bytes_cons. cbn [split_at].
    assert (Hdata : pre ++ c :: rest = (pre ++ [c]) ++ rest)
      by now rewrite <- app_assoc.
    assert (Hlen : List.length (pre ++ [c]) = S (List.length pre))
      by (rewrite length_app; cbn; lia).
    destruct (Byte.eqb c "|") eqn:Ec.
    + cbn [app fields_seen filter].
      rewrite substr_prefix_tail by exact Hle.
      unfold empty at 1. rewrite skipn_nonempty_ltb.
      rewrite Hdata, Nat.add_1_r, <- Hlen.
      rewrite (IH (pre ++ [c]) (List.length (pre ++ [c]))) by lia.
      rewrite skipn_all.
      destruct (start <? List.length pre)%nat; reflexivity.
    + cbn [app]. rewrite Hdata, <- Hlen.
      rewrite (IH (pre ++ [c]) start) by lia.
      rewrite skipn_app.
      replace (start - List.length pre)%nat with 0%nat by lia.
      reflexivity.
Qed.

Lemma fields_scalar_tokens (message : string_view) :
  fields_scalar message = tokens message.
Proof.
  exact (fields_seen_split_at message [] 0 (Nat.le_0_l _)).
Qed.

Lemma fields_simd_tokens (message : string_view) :
  fields_simd message = tokens message.
Proof.
  unfold fields_simd. rewrite simd_is_scalar. apply fields_scalar_tokens.
Qed.

Lemma split_at_app (d : byte) (a b : list byte) :
  forall cur,
    split_at d (a ++ d :: b) cur = split_at d a cur ++ split_at d b [].
Proof.
  induction a as [|c a IH]; intros cur; cbn [app split_at].
  - now rewrite (byte_dec_lb (eq_refl d)).
  - destruct (Byte.eqb c d); [cbn [app]; f_equal|]; apply IH.
Qed.

Lemma tokens_app (a b : string_view) :
  tokens (a ++ "|"%byte :: b) = tokens a ++ tokens b.
Proof.
  unfold tokens. now rewrite split_at_app, filter_app.
Qed.

Lemma split_at_delimiter_free (t : list byte) :
  delimiter_free t = true -> forall cur, split_at "|" t cur = [cur ++ t].
Proof.
  unfold delimiter_free.
  induction t as [|c t IH]; intros Hfree cur; cbn [split_at].
  - now rewrite app_nil_r.
  - cbn [forallb] in Hfree. apply andb_true_iff in Hfree.
    destruct Hfree as [Hc Ht].
    destruct (Byte.eqb c "|"); [discriminate|].
    rewrite (IH Ht), <- app_assoc. reflexivity.
Qed.

Lemma tokens_delimiter_free (t : string_view) :
  delimiter_free t = true -> empty t = false -> tokens t = [t].
Proof.
  intros Hfree Hne. unfold tokens.
  rewrite (split_at_delimiter_free t Hfree []). cbn [app filter].
  now rewrite Hne.
Qed.

Lemma tokens_nonempty (text : string_view) :
  Forall (fun f => f <> []) (tokens text).
Proof.
  apply Forall_forall. intros f Hin.
  apply filter_In in Hin. destruct Hin as [_ Hne].
  destruct f; [discriminate|congruence].
Qed.

(** * Properties of the parsers *)

Section ParserFacts.

Variable cpp_lib_to_chars : bool.
Variable from_chars_double : string_view -> option float.

Local Abbreviation populate_message :=
  (populate_message cpp_lib_to_chars from_chars_double).
Local Abbreviation process_field :=
  (process_field cpp_lib_to_chars from_chars_double).
Local Abbreviation delimiter_loop :=
  (delimiter_loop cpp_lib_to_chars from_chars_double).
Local Abbreviation parse_fields :=
  (parse_fields cpp_lib_to_chars from_chars_double).
Local Abbreviation parse_scalar :=
  (parse_scalar cpp_lib_to_chars from_chars_double).
Local Abbreviation parse_simd :=
  (parse_simd cpp_lib_to_chars from_chars_double).
Local Abbreviation apply_pairs :=
  (apply_pairs cpp_lib_to_chars from_chars_double).
Local Abbreviation stored := (stored cpp_lib_to_chars from_chars_double).

(** The loop and the last-field step process the fields of [fields_seen],
    first to last. *)
Lemma delimiter_loop_fold (message : string_view) (delimiters : list nat) :
  forall start result,
    (let '(start', result') :=
       delimiter_loop message delimiters start result in
     if (start' <? List.length message)%nat then
       process_field result' (substr_from message start')
     else result')
    = fold_left process_field (fields_seen message delimiters start) result.
Proof.
  induction delimiters as [|delim_pos rest IH]; intros start result.
  - cbn [Parser.delimiter_loop fields_seen].
    destruct (start <? List.length message)%nat; reflexivity.
  - cbn [Parser.delimiter_loop fields_seen].
    rewrite fold_left_app, IH.
    destruct (start <? delim_pos)%nat; reflexivity.
Qed.

Lemma parse_fields_fold (message : string_view) (delimiters : list nat) :
  parse_fields message delimiters
  = validate
      (fold_left process_field (fields_seen message delimiters 0)
         default_message).
Proof.
  unfold Parser.parse_fields.
  rewrite <- delimiter_loop_fold.
  destruct (delimiter_loop message delimiters 0 default_message).
  reflexivity.
Qed.

Lemma parse_scalar_fields (message : string_view) :
  parse_scalar message
  = validate
      (fold_left process_field (fields_scalar message) default_message).
Proof.
  unfold Parser.parse_scalar.
  destruct message as [|c rest]; [reflexivity|].
  cbn [empty]. apply parse_fields_fold.
Qed.

Lemma parse_simd_fields (message : string_view) :
  parse_simd message
  = validate
      (fold_left process_field (fields_simd message) default_message).
Proof.
  unfold Parser.parse_simd.
  destruct message as [|c rest]; [reflexivity|].
  cbn [empty]. apply parse_fields_fold.
Qed.

Lemma parse_simd_scalar (message : string_view) :
  parse_simd message = parse_scalar message.
Proof.
  rewrite parse_simd_fields, parse_scalar_fields.
  now rewrite fields_simd_tokens, fields_scalar_tokens.
Qed.

Lemma process_fields_pairs (fields : list string_view) :
  forall result,
    fold_left process_field fields result
    = apply_pairs
        (flat_map
           (fun f => match split_field f with
                     | Some kv => [kv]
                     | None => []
                     end) fields)
        result.
Proof.
  unfold Spec.apply_pairs.
  induction fields as [|f fields IH]; intros result; [reflexivity|].
  cbn [fold_left flat_map]. rewrite fold_left_app, IH.
  unfold Parser.process_field.
  destruct (split_field f) as [[tag value]|]; reflexivity.
Qed.

Lemma parse_scalar_pairs (message : string_view) :
  parse_scalar message
  = validate (apply_pairs (key_value_pairs message) default_message).
Proof.
  rewrite parse_scalar_fields, fields_scalar_tokens.
  now rewrite process_fields_pairs.
Qed.

Lemma validate_valid (result : FIXMessage) :
  valid (validate result) = true
  <-> message_type result <> [] /\ symbol result <> [].
Proof.
  unfold validate. cbn [valid set_valid].
  destruct (message_type result), (symbol result); cbn;
    intuition (discriminate || congruence).
Qed.

Lemma parse_simd_pairs (message : string_view) :
  parse_simd message
  = validate (apply_pairs (key_value_pairs message) default_message).
Proof.
  rewrite parse_simd_scalar. apply parse_scalar_pairs.
Qed.

Lemma find_existsb (s : string_view) (ch : byte) :
  existsb (fun c => Byte.eqb c ch) s = false -> find s ch = None.
Proof.
  induction s as [|c rest IH]; [reflexivity|].
  cbn [existsb find]. intros H. apply orb_false_iff in H.
  destruct H as [Hc Hrest]. now rewrite Hc, (IH Hrest).
Qed.

Lemma split_field_malformed (field : string_view) :
  malformed field = true -> split_field field = None.
Proof.
  unfold malformed, split_field. intros H.
  apply orb_true_iff in H. destruct H as [H|H].
  - apply negb_true_iff in H. now rewrite (find_existsb _ _ H).
  - destruct field as [|c rest]; [discriminate|].
    cbn [find]. now rewrite H.
Qed.

Lemma find_first_byte (c : byte) (rest : list byte) (ch : byte) :
  Byte.eqb c ch = false -> find (c :: rest) ch <> Some O.
Proof.
  intros Hc. cbn [find]. rewrite Hc.
  destruct (find rest ch); discriminate.
Qed.

Lemma find_existsb_some (s : string_view) (ch : byte) :
  existsb (fun c => Byte.eqb c ch) s = true -> find s ch <> None.
Proof.
  induction s as [|c rest IH]; [discriminate|].
  cbn [existsb find]. destruct (Byte.eqb c ch); [discriminate|].
  cbn [orb]. intros H. specialize (IH H).
  destruct (find rest ch); [discriminate|contradiction].
Qed.

(** [malformed] is exact: every other field is accepted. *)
Lemma split_field_well_formed (field : string_view) :
  malformed field = false -> split_field field <> None.
Proof.
  unfold malformed, split_field. intros H.
  apply orb_false_iff in H. destruct H as [Hex Hfirst].
  apply negb_false_iff in Hex.
  pose proof (find_existsb_some field "=" Hex) as Hsome.
  destruct field as [|c rest]; [discriminate|].
  pose proof (find_first_byte c rest "=" Hfirst) as Hpos.
  destruct (find (c :: rest) "=") as [[|n]|]; congruence.
Qed.

Lemma process_field_malformed (field : string_view) (result : FIXMessage) :
  malformed field = true -> process_field result field = result.
Proof.
  intros H. unfold Parser.process_field.
  now rewrite (split_field_malformed field H).
Qed.

Lemma process_tokens_malformed (field : string_view) (result : FIXMessage) :
  malformed field = true -> delimiter_free field = true ->
  fold_left process_field (tokens field) result = result.
Proof.
  intros Hmal Hfree. destruct field as [|c rest]; [reflexivity|].
  rewrite tokens_delimiter_free by (assumption || reflexivity).
  cbn [fold_left]. now apply process_field_malformed.
Qed.

Lemma parse_scalar_tokens (message : string_view) :
  parse_scalar message
  = validate (fold_left process_field (tokens message) default_message).
Proof.
  now rewrite parse_scalar_fields, fields_scalar_tokens.
Qed.

(** Re-validating changes nothing that a later validation sees. *)
Lemma validate_process_validate (result : FIXMessage) (field : string_view) :
  validate (process_field (validate result) field)
  = validate (process_field result field).
Proof.
  unfold Parser.process_field.
  destruct (split_field field) as [[tag value]|]; [|reflexivity].
  unfold Parser.populate_message.
  repeat match goal with
         | |- context [if ?b then _ else _] => destruct b
         end; reflexivity.
Qed.

Lemma slot_validate (tag : Z) (result : FIXMessage) :
  slot tag (validate result) = slot tag result.
Proof. reflexivity. Qed.

Lemma slot_populate_same (tag : Z) (value : string_view) (msg : FIXMessage) :
  slot tag (populate_message msg tag value) = stored tag value.
Proof.
  unfold slot, Spec.stored, Parser.populate_message.
  repeat match goal with
         | |- context [if ?b then _ else _] => destruct b eqn:?
         end; reflexivity.
Qed.

Lemma slot_populate_other (tag tag' : Z) (value : string_view)
    (msg : FIXMessage) :
  tag' <> tag ->
  slot tag (populate_message msg tag' value) = slot tag msg.
Proof.
  intros Hne. unfold slot, Parser.populate_message.
  repeat match goal with
         | |- context [if ?a =? ?b then _ else _] =>
             destruct (Z.eqb_spec a b)
         end; try reflexivity; congruence.
Qed.

Lemma apply_pairs_app (a b : list (Z * string_view)) (msg : FIXMessage) :
  apply_pairs (a ++ b) msg = apply_pairs b (apply_pairs a msg).
Proof. apply fold_left_app. Qed.

Lemma apply_pairs_cons (tag : Z) (value : string_view)
    (rest : list (Z * string_view)) (msg : FIXMessage) :
  apply_pairs ((tag, value) :: rest) msg
  = apply_pairs rest (populate_message msg tag value).
Proof. reflexivity. Qed.

Lemma slot_apply_pairs_other (tag : Z) (pairs : list (Z * string_view)) :
  Forall (fun kv => fst kv <> tag) pairs ->
  forall msg, slot tag (apply_pairs pairs msg) = slot tag msg.
Proof.
  unfold Spec.apply_pairs.
  induction 1 as [|kv pairs Hkv _ IH]; intros msg; [reflexivity|].
  cbn [fold_left]. rewrite IH. now apply slot_populate_other.
Qed.

(** C8. On the empty input both parsers return the default record at once:
    not valid, the four text slots empty, side, quantity and price zero. *)
Theorem empty_input_default_record :
  parse_scalar [] = default_message
  /\ parse_simd [] = default_message
  /\ valid default_message = false
  /\ message_type default_message = []
  /\ symbol default_message = []
  /\ sender default_message = []
  /\ target default_message = []
  /\ side default_message = 0
  /\ quantity default_message = 0
  /\ price default_message = 0%float.
Proof.
  repeat split.
Qed.

(** C2. For every input, the record either parser returns is valid exactly
    when, after all key/value pairs of the input have been applied in input
    order, the message-type slot and the symbol slot are both non-empty;
    these two slots of the returned record are the ones so obtained. *)
Theorem record_validity_law (message : string_view) :
  let applied := apply_pairs (key_value_pairs message) default_message in
  (valid (parse_scalar message) = true
   <-> message_type applied <> [] /\ symbol applied <> [])
  /\ (valid (parse_simd message) = true
      <-> message_type applied <> [] /\ symbol applied <> [])
  /\ (message_type (parse_scalar message) = message_type applied
      /\ symbol (parse_scalar message) = symbol applied)
  /\ (message_type (parse_simd message) = message_type applied
      /\ symbol (parse_simd message) = symbol applied).
Proof.
  cbv zeta. rewrite parse_simd_pairs, parse_scalar_pairs.
  split; [apply validate_valid|].
  split; [apply validate_valid|].
  repeat split.
Qed.

(** C3. Boundary law of the tokenizing step of both parsers. Both parsers
    process exactly the fields [fields_scalar] / [fields_simd] list, which
    agree; no listed field is empty; a non-empty text without delimiter is one
    field; a delimiter at the start adds no field; and what follows the last
    delimiter, when non-empty, is one more field. *)
Theorem tokenizer_boundary_law (text last : string_view) :
  (parse_scalar text
   = validate
       (fold_left process_field (fields_scalar text) default_message)
   /\ parse_simd text
      = validate
          (fold_left process_field (fields_simd text) default_message))
  /\ fields_simd text = fields_scalar text
  /\ Forall (fun f => f <> []) (fields_scalar text)
  /\ (delimiter_free text = true -> empty text = false ->
      fields_scalar text = [text])
  /\ fields_scalar ("|"%byte :: text) = fields_scalar text
  /\ (delimiter_free last = true -> empty last = false ->
      fields_scalar (text ++ "|"%byte :: last) = fields_scalar text ++ [last]).
Proof.
  rewrite fields_simd_tokens, !fields_scalar_tokens.
  split; [split|].
  - apply parse_scalar_tokens.
  - rewrite parse_simd_scalar. apply parse_scalar_tokens.
  - split; [reflexivity|].
    split; [apply tokens_nonempty|].
    split; [apply tokens_delimiter_free|].
    split; [apply (tokens_app [] text)|].
    intros Hfree Hne. rewrite tokens_app.
    now rewrite (tokens_delimiter_free last Hfree Hne).
Qed.

(** C4. A field with no ['='], or with ['='] as its first byte, is dropped
    silently: [split_field] refuses it, the record is left as it was, and
    the other fields of the input are processed as if the field were not
    there, whether it stands first, in the middle or last. For the input
    "35D|55=AAPL|" the symbol is "AAPL", the message type stays empty and
    the record is not valid. *)
Theorem malformed_field_dropped (field pre post : string_view)
    (result : FIXMessage) :
  (malformed field = true ->
   split_field field = None
   /\ process_field result field = result
   /\ (delimiter_free field = true ->
       (parse_scalar (field ++ "|"%byte :: post) = parse_scalar post
        /\ parse_simd (field ++ "|"%byte :: post) = parse_simd post)
       /\ (parse_scalar (pre ++ "|"%byte :: field ++ "|"%byte :: post)
           = parse_scalar (pre ++ "|"%byte :: post)
           /\ parse_simd (pre ++ "|"%byte :: field ++ "|"%byte :: post)
              = parse_simd (pre ++ "|"%byte :: post))
       /\ (parse_scalar (pre ++ "|"%byte :: field)
           = parse_scalar (pre ++ ["|"%byte])
           /\ parse_simd (pre ++ "|"%byte :: field)
              = parse_simd (pre ++ ["|"%byte]))))
  /\ (symbol (parse_scalar (sv "35D|55=AAPL|")) = sv "AAPL"
      /\ message_type (parse_scalar (sv "35D|55=AAPL|")) = []
      /\ valid (parse_scalar (sv "35D|55=AAPL|")) = false)
  /\ (symbol (parse_simd (sv "35D|55=AAPL|")) = sv "AAPL"
      /\ message_type (parse_simd (sv "35D|55=AAPL|")) = []
      /\ valid (parse_simd (sv "35D|55=AAPL|")) = false).
Proof.
  split; [|rewrite parse_simd_scalar; repeat split].
  intros Hmal. split; [now apply split_field_malformed|].
  split; [now apply process_field_malformed|].
  intros Hfree. rewrite !parse_simd_scalar, !parse_scalar_tokens.
  rewrite !tokens_app, !fold_left_app.
  rewrite !(process_tokens_malformed field) by assumption.
  repeat split.
Qed.

(** C5. Last write wins: when a key's last occurrence among the key/value
    pairs of the input carries [value], the slot of that key in the record
    either parser returns holds what writing [value] stores there, whatever
    earlier occurrences carried. *)
Theorem last_write_wins (message : string_view)
    (before after : list (Z * string_view)) (tag : Z) (value : string_view) :
  key_value_pairs message = before ++ (tag, value) :: after ->
  Forall (fun kv => fst kv <> tag) after ->
  slot tag (parse_scalar message) = stored tag value
  /\ slot tag (parse_simd message) = stored tag value.
Proof.
  intros Hpairs Hafter.
  rewrite parse_simd_scalar, parse_scalar_pairs, Hpairs, slot_validate.
  assert (H : slot tag
                (apply_pairs (before ++ (tag, value) :: after)
                   default_message)
              = stored tag value).
  { rewrite apply_pairs_app, apply_pairs_cons.
    rewrite (slot_apply_pairs_other tag after Hafter).
    apply slot_populate_same. }
  split; exact H.
Qed.

End ParserFacts.

(** * Properties of the numeric converters *)

Section NumericFacts.

Lemma is_digit_not_minus (c : byte) :
  is_digit c = true -> Byte.eqb c "-" = false.
Proof. destruct c; (reflexivity || discriminate). Qed.

Lemma is_digit_not_equals (c : byte) :
  is_digit c = true -> Byte.eqb c "=" = false.
Proof. destruct c; (reflexivity || discriminate). Qed.

Lemma digit_run_stops (ds : list byte) (c : byte) (rest : list byte) :
  forallb is_digit ds = true -> is_digit c = false ->
  digit_run (ds ++ c :: rest) = (ds, c :: rest).
Proof.
  intros Hds Hc. induction ds as [|d ds IH]; cbn [app digit_run].
  - now rewrite Hc.
  - cbn [forallb] in Hds. apply andb_true_iff in Hds.
    destruct Hds as [Hd Hds]. now rewrite Hd, (IH Hds).
Qed.

Lemma digit_run_all (ds : list byte) :
  forallb is_digit ds = true -> digit_run ds = (ds, []).
Proof.
  intros Hds. induction ds as [|d ds IH]; [reflexivity|].
  cbn [forallb] in Hds. apply andb_true_iff in Hds.
  destruct Hds as [Hd Hds]. cbn [digit_run]. now rewrite Hd, (IH Hds).
Qed.

Lemma accumulate_digits_stops (ds : list byte) (c : byte)
    (rest : list byte) :
  forallb is_digit ds = true -> is_digit c = false ->
  forall result,
    accumulate_digits (ds ++ c :: rest) result = accumulate_digits ds result.
Proof.
  intros Hds Hc. induction ds as [|d ds IH]; intros result;
    cbn [app accumulate_digits].
  - now rewrite Hc.
  - cbn [forallb] in Hds. apply andb_true_iff in Hds.
    destruct Hds as [Hd Hds]. rewrite Hd. apply (IH Hds).
Qed.

(** The integer parser reads the leading digit run and stops at the first
    byte that is no digit. *)
Lemma parse_int_digit_prefix (ds : list byte) (c : byte) (rest : list byte) :
  empty ds = false -> forallb is_digit ds = true -> is_digit c = false ->
  parse_int (ds ++ c :: rest) = parse_int ds.
Proof.
  intros Hne Hds Hc. destruct ds as [|d ds]; [discriminate|].
  assert (Hd : is_digit d = true)
    by (cbn [forallb] in Hds; now apply andb_true_iff in Hds).
  unfold parse_int, from_chars_int32, leading_minus. cbn [app].
  rewrite (is_digit_not_minus d Hd).
  change (d :: ds ++ c :: rest) with ((d :: ds) ++ c :: rest).
  rewrite (digit_run_stops _ c rest Hds Hc), (digit_run_all _ Hds).
  cbn [fst].
  destruct ((INT32_MIN <=? decimal_value (d :: ds))
            && (decimal_value (d :: ds) <=? INT32_MAX)); [reflexivity|].
  apply (accumulate_digits_stops _ c rest Hds Hc).
Qed.

(** C7. [parse_int] returns zero on every input without valid leading
    digits: the empty text, a lone ['-'], and any text whose first byte
    after an optional ['-'] is not a decimal digit. *)
Theorem parse_int_no_digits_zero (str : string_view) :
  no_leading_digits str = true -> parse_int str = 0.
Proof.
  unfold no_leading_digits, parse_int, from_chars_int32, leading_minus.
  destruct str as [|c rest]; [reflexivity|].
  destruct (Byte.eqb c "-").
  - destruct rest as [|c' rest']; [reflexivity|].
    intros H. apply negb_true_iff in H.
    cbn [digit_run accumulate_digits fst]. now rewrite H.
  - intros H. apply negb_true_iff in H.
    cbn [digit_run accumulate_digits fst]. now rewrite H.
Qed.

Lemma find_skips (key : list byte) (ch : byte) (rest : list byte) :
  existsb (fun c => Byte.eqb c ch) key = false ->
  find (key ++ rest) ch = option_map (Nat.add (List.length key)) (find rest ch).
Proof.
  intros Hkey. induction key as [|c key IH]; cbn [app find List.length].
  - now destruct (find rest ch).
  - cbn [existsb] in Hkey. apply orb_false_iff in Hkey.
    destruct Hkey as [Hc Hkey]. rewrite Hc, (IH Hkey).
    now destruct (find rest ch).
Qed.

(** A field made of a non-empty key text without ['='], an ['='] and a value
    is accepted, its key text converted by [parse_int]. *)
Lemma split_field_key_value (key value : string_view) :
  empty key = false ->
  existsb (fun c => Byte.eqb c "=") key = false ->
  split_field (key ++ "="%byte :: value)
  = Some (wrap_u32 (parse_int key), value).
Proof.
  intros Hne Hkey. unfold split_field.
  rewrite (find_skips key "=" _ Hkey). cbn [find Byte.eqb option_map].
  change (Byte.eqb "=" "=") with true. cbn [option_map].
  rewrite Nat.add_0_r.
  destruct (List.length key) as [|n] eqn:Hlen.
  { destruct key; discriminate. }
  rewrite <- Hlen. unfold substr, substr_from. cbn [skipn].
  rewrite firstn_app, firstn_all, Nat.sub_diag. cbn [firstn].
  rewrite app_nil_r, skipn_app.
  rewrite skipn_all2 by lia.
  replace (List.length key + 1 - List.length key)%nat with 1%nat by lia.
  reflexivity.
Qed.

Lemma existsb_app_false {A} (f : A -> bool) (a b : list A) :
  existsb f a = false -> existsb f b = false -> existsb f (a ++ b) = false.
Proof.
  intros Ha Hb. now rewrite existsb_app, Ha, Hb.
Qed.

Lemma digits_no_equals (ds : list byte) :
  forallb is_digit ds = true ->
  existsb (fun c => Byte.eqb c "=") ds = false.
Proof.
  induction ds as [|d ds IH]; [reflexivity|].
  cbn [forallb existsb]. intros H. apply andb_true_iff in H.
  destruct H as [Hd Hds].
  now rewrite (is_digit_not_equals d Hd), (IH Hds).
Qed.

End NumericFacts.

Section ConverterFacts.

Variable cpp_lib_to_chars : bool.
Variable from_chars_double : string_view -> option float.

Local Abbreviation process_field :=
  (process_field cpp_lib_to_chars from_chars_double).
Local Abbreviation parse_double :=
  (parse_double cpp_lib_to_chars from_chars_double).
Local Abbreviation populate_message :=
  (populate_message cpp_lib_to_chars from_chars_double).
Local Abbreviation parse_scalar :=
  (parse_scalar cpp_lib_to_chars from_chars_double).
Local Abbreviation parse_simd :=
  (parse_simd cpp_lib_to_chars from_chars_double).
Local Abbreviation stored := (stored cpp_lib_to_chars from_chars_double).

(** C10. A field whose key text is a run of digits followed by a byte that
    is no digit (and by any further text without ['=']) is accepted: the key
    text converts to what the digit run alone converts to, and the value is
    written into the slot of that key, exactly as for the field with the
    trailing text removed. With [tag] the number the digit run converts to:
    the field is handed to [populate_message] under [tag]; the slot of [tag]
    then holds what writing the value stores there; member by member, a digit
    run for 35, 55, 49, 56, 54, 44 or 38 puts the value (or its conversion)
    into message type, symbol, sender, target, side, price or quantity. Inside
    a message the field parses as the field without the trailing text does.
    The field "35x=D" sets the message type to "D", and "35x=D|55=SPY|" is a
    valid record of type "D" and symbol "SPY". *)
Theorem key_trailing_text_ignored (ds junk value : string_view) (c : byte)
    (result : FIXMessage) :
  empty ds = false ->
  forallb is_digit ds = true ->
  is_digit c = false ->
  existsb (fun b => Byte.eqb b "=") (c :: junk) = false ->
  parse_int (ds ++ c :: junk) = parse_int ds
  /\ split_field (ds ++ (c :: junk) ++ "="%byte :: value)
     = Some (wrap_u32 (parse_int ds), value)
  /\ split_field (ds ++ "="%byte :: value)
     = Some (wrap_u32 (parse_int ds), value)
  /\ process_field result (ds ++ (c :: junk) ++ "="%byte :: value)
     = process_field result (ds ++ "="%byte :: value)
  /\ process_field result (ds ++ (c :: junk) ++ "="%byte :: value)
     = populate_message result (wrap_u32 (parse_int ds)) value
  /\ slot (wrap_u32 (parse_int ds))
       (process_field result (ds ++ (c :: junk) ++ "="%byte :: value))
     = stored (wrap_u32 (parse_int ds)) value
  /\ ((wrap_u32 (parse_int ds) = FIXTag.MessageType ->
       message_type
         (process_field result (ds ++ (c :: junk) ++ "="%byte :: value))
       = value)
      /\ (wrap_u32 (parse_int ds) = FIXTag.Symbol ->
          symbol
            (process_field result (ds ++ (c :: junk) ++ "="%byte :: value))
          = value)
      /\ (wrap_u32 (parse_int ds) = FIXTag.SenderCompID ->
          sender
            (process_field result (ds ++ (c :: junk) ++ "="%byte :: value))
          = value)
      /\ (wrap_u32 (parse_int ds) = FIXTag.TargetCompID ->
          target
            (process_field result (ds ++ (c :: junk) ++ "="%byte :: value))
          = value)
      /\ (wrap_u32 (parse_int ds) = FIXTag.Side ->
          side
            (process_field result (ds ++ (c :: junk) ++ "="%byte :: value))
          = parse_int value)
      /\ (wrap_u32 (parse_int ds) = FIXTag.Price ->
          price
            (process_field result (ds ++ (c :: junk) ++ "="%byte :: value))
          = parse_double value)
      /\ (wrap_u32 (parse_int ds) = FIXTag.OrderQty ->
          quantity
            (process_field result (ds ++ (c :: junk) ++ "="%byte :: value))
          = parse_int value))
  /\ (delimiter_free (ds ++ (c :: junk) ++ "="%byte :: value) = true ->
      forall pre post,
        parse_scalar
          (pre ++ "|"%byte
               :: (ds ++ (c :: junk) ++ "="%byte :: value)
               ++ "|"%byte :: post)
        = parse_scalar
            (pre ++ "|"%byte :: (ds ++ "="%byte :: value)
                 ++ "|"%byte :: post)
        /\ parse_simd
             (pre ++ "|"%byte
                  :: (ds ++ (c :: junk) ++ "="%byte :: value)
                  ++ "|"%byte :: post)
           = parse_simd
               (pre ++ "|"%byte :: (ds ++ "="%byte :: value)
                    ++ "|"%byte :: post))
  /\ (message_type (process_field default_message (sv "35x=D")) = sv "D"
      /\ parse_scalar (sv "35x=D|55=SPY|")
         = set_valid
             (set_symbol (set_message_type default_message (sv "D"))
                (sv "SPY"))
             true
      /\ parse_simd (sv "35x=D|55=SPY|")
         = parse_scalar (sv "35x=D|55=SPY|")).
Proof.
  intros Hne Hds Hc Hjunk.
  pose proof (parse_int_digit_prefix ds c junk Hne Hds Hc) as Hint.
  pose proof (digits_no_equals ds Hds) as Heq.
  assert (Hlong : split_field (ds ++ (c :: junk) ++ "="%byte :: value)
                  = Some (wrap_u32 (parse_int ds), value)).
  { rewrite app_assoc, split_field_key_value.
    - now rewrite Hint.
    - destruct ds; [discriminate|reflexivity].
    - now apply existsb_app_false. }
  assert (Hshort : split_field (ds ++ "="%byte :: value)
                   = Some (wrap_u32 (parse_int ds), value))
    by now apply split_field_key_value.
  assert (Hsame : process_field result
                    (ds ++ (c :: junk) ++ "="%byte :: value)
                  = process_field result (ds ++ "="%byte :: value))
    by (unfold Parser.process_field; now rewrite Hlong, Hshort).
  assert (Hwrite : process_field result
                     (ds ++ (c :: junk) ++ "="%byte :: value)
                   = populate_message result (wrap_u32 (parse_int ds)) value)
    by (unfold Parser.process_field; now rewrite Hlong).
  split; [exact Hint|]. split; [exact Hlong|]. split; [exact Hshort|].
  split; [exact Hsame|]. split; [exact Hwrite|].
  split; [rewrite Hwrite; apply slot_populate_same|].
  split.
  { rewrite Hwrite.
    repeat split; intros Htag; rewrite Htag; reflexivity. }
  split.
  { intros Hfree pre post.
    assert (Hfree' : delimiter_free (ds ++ "="%byte :: value) = true).
    { unfold delimiter_free in *.
      rewrite !forallb_app in Hfree. rewrite forallb_app.
      apply andb_true_iff in Hfree. destruct Hfree as [H1 H2].
      apply andb_true_iff in H2. destruct H2 as [_ H2].
      now rewrite H1, H2. }
    assert (Hne_long : empty (ds ++ (c :: junk) ++ "="%byte :: value)
                       = false)
      by (destruct ds; [discriminate|reflexivity]).
    assert (Hne_short : empty (ds ++ "="%byte :: value) = false)
      by (destruct ds; [discriminate|reflexivity]).
    rewrite !parse_simd_scalar, !parse_scalar_tokens, !tokens_app.
    rewrite (tokens_delimiter_free _ Hfree Hne_long).
    rewrite (tokens_delimiter_free _ Hfree' Hne_short).
    rewrite !fold_left_app. cbn [fold_left].
    assert (Hany : forall r,
               process_field r (ds ++ (c :: junk) ++ "="%byte :: value)
               = process_field r (ds ++ "="%byte :: value))
      by (intros r; unfold Parser.process_field; now rewrite Hlong, Hshort).
    rewrite Hany. split; reflexivity. }
  split; [reflexivity|]. split; [reflexivity|].
  apply parse_simd_scalar.
Qed.

Lemma leading_minus_before_point (ip rest : list byte) :
  leading_minus (ip ++ "."%byte :: rest)
  = (fst (leading_minus ip), snd (leading_minus ip) ++ "."%byte :: rest).
Proof.
  unfold leading_minus. destruct ip as [|c ip]; [reflexivity|].
  cbn [app]. destruct (Byte.eqb c "-"); reflexivity.
Qed.

Lemma leading_minus_no_point (ip : list byte) :
  existsb (fun b => Byte.eqb b ".") ip = false ->
  existsb (fun b => Byte.eqb b ".") (snd (leading_minus ip)) = false.
Proof.
  unfold leading_minus. destruct ip as [|c ip]; [reflexivity|].
  destruct (Byte.eqb c "-"); cbn [snd]; [|trivial].
  cbn [existsb]. intros H. apply orb_false_iff in H. tauto.
Qed.

(** The integer-part loop leaves at the first ['.']. *)
Lemma integer_part_loop_point (ip rest : list byte) :
  existsb (fun b => Byte.eqb b ".") ip = false ->
  forall acc,
    integer_part_loop (ip ++ "."%byte :: rest) acc
    = (fst (integer_part_loop ip acc), "."%byte :: rest).
Proof.
  intros Hip. induction ip as [|c ip IH]; intros acc;
    cbn [app integer_part_loop].
  - reflexivity.
  - cbn [existsb] in Hip. apply orb_false_iff in Hip.
    destruct Hip as [Hc Hip]. rewrite Hc. apply (IH Hip).
Qed.

(** The fractional-part loop leaves at the first byte that is no digit. *)
Lemma fractional_part_loop_stops (frac : list byte) (c : byte)
    (rest : list byte) :
  forallb is_digit frac = true -> is_digit c = false ->
  forall acc divisor,
    fractional_part_loop (frac ++ c :: rest) acc divisor
    = fractional_part_loop frac acc divisor.
Proof.
  intros Hfrac Hc. induction frac as [|d frac IH]; intros acc divisor;
    cbn [app fractional_part_loop].
  - now rewrite Hc.
  - cbn [forallb] in Hfrac. apply andb_true_iff in Hfrac.
    destruct Hfrac as [Hd Hfrac]. rewrite Hd. apply (IH Hfrac).
Qed.

Lemma parse_double_manual_point (ip after : list byte) :
  existsb (fun b => Byte.eqb b ".") ip = false ->
  parse_double_manual (ip ++ "."%byte :: after)
  = let result :=
      (fst (integer_part_loop (snd (leading_minus ip)) 0)
       + fractional_part_loop after 0 10)%float in
    if fst (leading_minus ip) then (- result)%float else result.
Proof.
  intros Hip. unfold parse_double_manual.
  rewrite leading_minus_before_point.
  rewrite (integer_part_loop_point _ after (leading_minus_no_point ip Hip)).
  reflexivity.
Qed.

(** C6, as the code has it. [parse_double] always returns a value. With the
    platform conversion compiled in, a text it accepts yields the platform's
    value unchanged; in every other case the manual path decides, and the
    manual path scales by no exponent: after a mantissa with a fractional
    part, reading ends at the first byte that is no digit, so the result is
    that of the mantissa alone. *)
Theorem parse_double_exponent_handling (str ip frac rest : string_view)
    (c : byte) :
  (parse_double str = parse_double_manual str
   \/ (cpp_lib_to_chars = true
       /\ from_chars_double str = Some (parse_double str)))
  /\ (forall r,
     cpp_lib_to_chars = true -> from_chars_double str = Some r ->
     parse_double str = r)
  /\ (cpp_lib_to_chars = false \/ from_chars_double str = None ->
      parse_double str = parse_double_manual str)
  /\ (existsb (fun b => Byte.eqb b ".") ip = false ->
      forallb is_digit frac = true ->
      is_digit c = false ->
      parse_double_manual (ip ++ "."%byte :: frac ++ c :: rest)
      = parse_double_manual (ip ++ "."%byte :: frac)).
Proof.
  unfold Numeric.parse_double. split; [|repeat split].
  - destruct cpp_lib_to_chars; [|now left].
    destruct (from_chars_double str) as [r|]; [right|left]; auto.
  - intros r -> ->. reflexivity.
  - intros [-> | ->]; [reflexivity|].
    destruct cpp_lib_to_chars; reflexivity.
  - intros Hip Hfrac Hc.
    rewrite !parse_double_manual_point by exact Hip. cbv zeta.
    now rewrite (fractional_part_loop_stops frac c rest Hfrac Hc).
Qed.

End ConverterFacts.

(** * The laws at concrete inputs

    The build used below has no floating-point [std::from_chars]
    ([__cpp_lib_to_chars] undefined), so prices go through the manual path. *)

Lemma tokenizer_boundary_law_witness :
  fields_scalar (sv "35=D") = [sv "35=D"]
  /\ fields_scalar (sv "35=D" ++ "|"%byte :: sv "55=SPY")
     = fields_scalar (sv "35=D") ++ [sv "55=SPY"].
Proof.
  destruct (tokenizer_boundary_law false no_from_chars_double
              (sv "35=D") (sv "55=SPY"))
    as (_ & _ & _ & Hone & _ & Hlast).
  split; [apply Hone | apply Hlast]; reflexivity.
Defined.

Lemma malformed_field_dropped_witness :
  split_field (sv "35D") = None
  /\ parse_scalar false no_from_chars_double
       (sv "35D" ++ "|"%byte :: sv "55=AAPL|")
     = parse_scalar false no_from_chars_double (sv "55=AAPL|").
Proof.
  destruct (malformed_field_dropped false no_from_chars_double
              (sv "35D") [] (sv "55=AAPL|") default_message)
    as [Hdrop _].
  destruct (Hdrop eq_refl) as (Hsplit & _ & Hrest).
  destruct (Hrest eq_refl) as ((Hscalar & _) & _).
  split; [exact Hsplit | exact Hscalar].
Defined.

Lemma last_write_wins_witness :
  slot FIXTag.Symbol
    (parse_scalar false no_from_chars_double (sv "35=D|55=FIRST|55=SECOND|"))
  = Some (Text (sv "SECOND"))
  /\ slot FIXTag.Symbol
       (parse_simd false no_from_chars_double (sv "35=D|55=FIRST|55=SECOND|"))
     = Some (Text (sv "SECOND")).
Proof.
  apply (last_write_wins false no_from_chars_double
           (sv "35=D|55=FIRST|55=SECOND|")
           [(FIXTag.MessageType, sv "D"); (FIXTag.Symbol, sv "FIRST")] []
           FIXTag.Symbol (sv "SECOND")).
  - vm_compute. reflexivity.
  - constructor.
Defined.

Lemma parse_int_no_digits_zero_witness :
  parse_int (sv "") = 0
  /\ parse_int (sv "-") = 0
  /\ parse_int (sv "-x1") = 0
  /\ parse_int (sv "abc") = 0.
Proof.
  split; [exact (parse_int_no_digits_zero (sv "") eq_refl)|].
  split; [exact (parse_int_no_digits_zero (sv "-") eq_refl)|].
  split; [exact (parse_int_no_digits_zero (sv "-x1") eq_refl)|].
  exact (parse_int_no_digits_zero (sv "abc") eq_refl).
Defined.

Lemma key_trailing_text_ignored_witness :
  split_field (sv "35x=D") = Some (FIXTag.MessageType, sv "D")
  /\ process_field false no_from_chars_double default_message (sv "35x=D")
     = process_field false no_from_chars_double default_message (sv "35=D")
  /\ message_type
       (process_field false no_from_chars_double default_message
          (sv "35x=D"))
     = sv "D"
  /\ slot FIXTag.MessageType
       (process_field false no_from_chars_double default_message
          (sv "35x=D"))
     = Some (Text (sv "D"))
  /\ parse_scalar false no_from_chars_double (sv "|35x=D|55=SPY")
     = parse_scalar false no_from_chars_double (sv "|35=D|55=SPY").
Proof.
  destruct (key_trailing_text_ignored false no_from_chars_double
              (sv "35") [] (sv "D") "x" default_message
              eq_refl eq_refl eq_refl eq_refl)
    as (_ & Hsplit & _ & Hsame & _ & Hslot & (Hmt & _) & Hparse & _).
  split; [exact Hsplit|]. split; [exact Hsame|].
  split; [exact (Hmt eq_refl)|]. split; [exact Hslot|].
  exact (proj1 (Hparse eq_refl [] (sv "55=SPY"))).
Defined.

Lemma parse_double_exponent_handling_witness :
  parse_double false no_from_chars_double (sv "1.5e3")
  = parse_double_manual (sv "1.5e3")
  /\ parse_double_manual (sv "1.5e3") = parse_double_manual (sv "1.5").
Proof.
  destruct (parse_double_exponent_handling false no_from_chars_double
              (sv "1.5e3") (sv "1") (sv "5") (sv "3") "e")
    as (_ & _ & Hmanual & Hmantissa).
  split.
  - apply Hmanual. left. reflexivity.
  - apply Hmantissa; reflexivity.
Defined.

(** C6 as stated fails at "1e5" on the manual path: the result is 15, which
    is neither zero nor the value of the text before the exponent, "1". *)
Lemma parse_double_exponent_counterexample :
  parse_double false no_from_chars_double (sv "1e5") = 15%float
  /\ parse_double false no_from_chars_double (sv "1") = 1%float
  /\ parse_double false no_from_chars_double (sv "1e5")
     <> parse_double false no_from_chars_double (sv "1")
  /\ parse_double false no_from_chars_double (sv "1e5") <> 0%float.
Proof.
  assert (E15 : parse_double false no_from_chars_double (sv "1e5")
                = 15%float) by (vm_compute; reflexivity).
  assert (E1 : parse_double false no_from_chars_double (sv "1") = 1%float)
    by (vm_compute; reflexivity).
  rewrite E15, E1. repeat split.
  - intros H. apply (f_equal (fun x => PrimFloat.eqb x 1)) in H.
    vm_compute in H. discriminate.
  - intros H. apply (f_equal (fun x => PrimFloat.eqb x 0)) in H.
    vm_compute in H. discriminate.
Qed.

(** The examples of the specification, on the same build. *)
Example parse_example_1 :
  parse_scalar false no_from_chars_double
    (sv "35=D|55=SPY|54=1|38=100|44=450.00|")
  = mkFIXMessage (sv "D") (sv "SPY") [] [] 1 450%float 100 true.
Proof. vm_compute. reflexivity. Qed.

Example parse_example_3 :
  valid (parse_scalar false no_from_chars_double (sv "55=AAPL|54=1|")) = false
  /\ symbol (parse_scalar false no_from_chars_double (sv "55=AAPL|54=1|"))
     = sv "AAPL".
Proof. vm_compute. split; reflexivity. Qed.

Example find_delimiters_chunks :
  find_delimiters_simd (repeat "|"%byte 130) "|" = seq 0 130
  /\ find_delimiters_simd (repeat "|"%byte 64) "|" = seq 0 64
  /\ find_delimiters_simd (repeat "|"%byte 3) "|" = [0; 1; 2]%nat
  /\ find_delimiters_simd [] "|" = [].
Proof. vm_compute. repeat split. Qed.

(** * Further properties of the delimiter scanners *)

Section ScannerContents.

Variable delimiter : byte.

Lemma scan_bytes_shift (bytes : list byte) :
  forall i k,
    scan_bytes delimiter bytes (i + k) []
    = map (fun p => (p + k)%nat) (scan_bytes delimiter bytes i []).
Proof.
  induction bytes as [|c rest IH]; intros i k; [reflexivity|].
  rewrite !scan_bytes_cons, map_app.
  change (S (i + k)) with (S i + k)%nat. rewrite IH.
  destruct (Byte.eqb c delimiter); reflexivity.
Qed.

Lemma scan_bytes_member (bytes : list byte) :
  forall i p,
    In p (scan_bytes delimiter bytes i [])
    <-> (i <= p)%nat /\ nth_error bytes (p - i) = Some delimiter.
Proof.
  induction bytes as [|c rest IH]; intros i p.
  - cbn [scan_bytes In]. split; [contradiction|].
    intros [_ H]. destruct (p - i)%nat; discriminate.
  - rewrite scan_bytes_cons, in_app_iff, IH.
    destruct (Nat.eq_dec p i) as [->|Hne].
    + rewrite Nat.sub_diag. cbn [nth_error].
      destruct (Byte.eqb c delimiter) eqn:E.
      * apply byte_dec_bl in E. subst c. cbn [In]. intuition.
      * apply eqb_false in E. cbn [In].
        split; [intros [[]|[Hlt _]]; lia|].
        intros [_ H]. congruence.
    + split.
      * intros [H|[Hle Hnth]].
        -- destruct (Byte.eqb c delimiter); cbn [In] in H;
             [destruct H as [H|[]]; congruence|contradiction].
        -- split; [lia|].
           replace (p - i)%nat with (S (p - S i)) by lia. exact Hnth.
      * intros [Hle Hnth]. right. split; [lia|].
        replace (p - i)%nat with (S (p - S i)) in Hnth by lia. exact Hnth.
Qed.

Lemma scan_bytes_count (bytes : list byte) :
  forall i,
    List.length (scan_bytes delimiter bytes i [])
    = List.length (filter (fun c => Byte.eqb c delimiter) bytes).
Proof.
  induction bytes as [|c rest IH]; intros i; [reflexivity|].
  rewrite scan_bytes_cons, length_app, IH. cbn [filter].
  destruct (Byte.eqb c delimiter); reflexivity.
Qed.

(** X1. A position is in the list a scanner returns exactly when the byte
    at that position is the delimiter. *)
Theorem scanner_positions_exact (data : string_view) (p : nat) :
  (In p (find_delimiters_scalar data delimiter)
   <-> nth_error data p = Some delimiter)
  /\ (In p (find_delimiters_simd data delimiter)
      <-> nth_error data p = Some delimiter).
Proof.
  rewrite simd_is_scalar. unfold find_delimiters_scalar.
  assert (H : In p (scan_bytes delimiter data 0 [])
              <-> nth_error data p = Some delimiter).
  { rewrite scan_bytes_member, Nat.sub_0_r. intuition lia. }
  split; exact H.
Qed.

(** X2. Either scanner returns as many positions as the buffer has
    delimiter bytes. *)
Theorem scanner_positions_count (data : string_view) :
  List.length (find_delimiters_scalar data delimiter)
  = List.length (filter (fun c => Byte.eqb c delimiter) data)
  /\ List.length (find_delimiters_simd data delimiter)
     = List.length (filter (fun c => Byte.eqb c delimiter) data).
Proof.
  rewrite simd_is_scalar. split; apply scan_bytes_count.
Qed.

(** X3. Scanning a concatenation yields the positions of the first part
    followed by those of the second part shifted by the length of the
    first. *)
Theorem scanner_concatenation (a b : string_view) :
  find_delimiters_scalar (a ++ b) delimiter
  = find_delimiters_scalar a delimiter
    ++ map (fun p => (p + List.length a)%nat)
         (find_delimiters_scalar b delimiter)
  /\ find_delimiters_simd (a ++ b) delimiter
     = find_delimiters_simd a delimiter
       ++ map (fun p => (p + List.length a)%nat)
            (find_delimiters_simd b delimiter).
Proof.
  rewrite !simd_is_scalar. unfold find_delimiters_scalar.
  assert (H : scan_bytes delimiter (a ++ b) 0 []
              = scan_bytes delimiter a 0 []
                ++ map (fun p => (p + List.length a)%nat)
                     (scan_bytes delimiter b 0 [])).
  { rewrite scan_bytes_app, scan_bytes_acc. f_equal.
    apply (scan_bytes_shift b 0 (List.length a)). }
  split; exact H.
Qed.

End ScannerContents.

(** * Further properties of the field splitter *)

Section FieldContents.

Lemma find_some_split (s : string_view) (ch : byte) :
  forall n,
    find s ch = Some n ->
    s = firstn n s ++ ch :: skipn (S n) s
    /\ existsb (fun c => Byte.eqb c ch) (firstn n s) = false.
Proof.
  induction s as [|c rest IH]; intros n Hfind; [discriminate|].
  cbn [find] in Hfind. destruct (Byte.eqb c ch) eqn:E.
  - injection Hfind as <-. apply byte_dec_bl in E. subst c.
    split; reflexivity.
  - destruct (find rest ch) as [m|]; [|discriminate].
    injection Hfind as <-. destruct (IH m eq_refl) as [Hsplit Hnone].
    cbn [firstn skipn app existsb]. rewrite E, Hnone.
    split; [|reflexivity]. f_equal. exact Hsplit.
Qed.

Lemma split_field_shape (field value : string_view) (tag : Z) :
  split_field field = Some (tag, value) ->
  exists key,
    field = key ++ "="%byte :: value
    /\ empty key = false
    /\ existsb (fun c => Byte.eqb c "=") key = false
    /\ tag = wrap_u32 (parse_int key).
Proof.
  unfold split_field. intros H.
  destruct (find field "=") as [[|n]|] eqn:Hfind; try discriminate.
  destruct (find_some_split field "=" (S n) Hfind) as [Hsplit Hnone].
  injection H as Htag Hvalue.
  exists (firstn (S n) field). unfold substr, substr_from in *.
  cbn [skipn] in Htag. rewrite Nat.add_1_r in Hvalue.
  rewrite <- Hvalue, <- Htag. repeat split; try assumption.
  destruct field; [discriminate|reflexivity].
Qed.

(** X9. [split_field] accepts exactly the fields made of a non-empty key
    text without ['='], an ['='] and a value; the value is everything after
    the first ['='], further ['='] bytes included, and the tag is the key
    text converted by [parse_int] and taken as [uint32_t]. *)
Theorem split_field_accepts_exactly (field value : string_view) (tag : Z) :
  split_field field = Some (tag, value)
  <-> exists key,
        field = key ++ "="%byte :: value
        /\ empty key = false
        /\ existsb (fun c => Byte.eqb c "=") key = false
        /\ tag = wrap_u32 (parse_int key).
Proof.
  split.
  - apply split_field_shape.
  - intros (key & -> & Hne & Hkey & ->).
    now apply split_field_key_value.
Qed.

Lemma split_at_all_free (text : list byte) :
  forall cur,
    delimiter_free cur = true ->
    Forall (fun f => delimiter_free f = true) (split_at "|" text cur).
Proof.
  unfold delimiter_free.
  induction text as [|c rest IH]; intros cur Hcur; cbn [split_at].
  - now constructor.
  - destruct (Byte.eqb c "|") eqn:E.
    + constructor; [exact Hcur|]. now apply IH.
    + apply IH. rewrite forallb_app, Hcur. cbn [forallb]. now rewrite E.
Qed.

Lemma split_at_all_slices (d : byte) (text : list byte) :
  forall pre cur,
    Forall (fun f => slice_of f (pre ++ cur ++ text)) (split_at d text cur).
Proof.
  induction text as [|c rest IH]; intros pre cur; cbn [split_at].
  - constructor; [|constructor]. now exists pre, [].
  - destruct (Byte.eqb c d).
    + constructor; [now exists pre, (c :: rest)|].
      specialize (IH (pre ++ cur ++ [c]) []).
      cbn [app] in IH. now rewrite <- !app_assoc in IH.
    + specialize (IH pre (cur ++ [c])).
      now rewrite <- !app_assoc in IH.
Qed.

Lemma slice_of_trans (a b c : string_view) :
  slice_of a b -> slice_of b c -> slice_of a c.
Proof.
  intros (p1 & q1 & ->) (p2 & q2 & ->).
  exists (p2 ++ p1), (q1 ++ q2). now rewrite <- !app_assoc.
Qed.

(** Every token is a delimiter-free slice of the text. *)
Lemma tokens_free_slices (text : string_view) (f : string_view) :
  In f (tokens text) -> delimiter_free f = true /\ slice_of f text.
Proof.
  unfold tokens. intros Hin. apply filter_In in Hin. destruct Hin as [Hin _].
  split.
  - pose proof (split_at_all_free text [] eq_refl) as H.
    rewrite Forall_forall in H. now apply H.
  - pose proof (split_at_all_slices "|" text [] []) as H.
    rewrite Forall_forall in H. now apply H.
Qed.

(** Every value among the pairs of a message is a delimiter-free slice of
    the message. *)
Lemma pair_value_free_slice (message : string_view) (k : Z)
    (v : string_view) :
  In (k, v) (key_value_pairs message) ->
  delimiter_free v = true /\ slice_of v message.
Proof.
  unfold key_value_pairs. intros Hin. apply in_flat_map in Hin.
  destruct Hin as (f & Hf & Hkv).
  destruct (split_field f) as [[k' v']|] eqn:Hsplit; [|contradiction].
  destruct Hkv as [Hkv|[]]. injection Hkv as -> ->.
  destruct (tokens_free_slices message f Hf) as [Hfree Hslice].
  destruct (split_field_shape f v k Hsplit) as (key & -> & _).
  split.
  - unfold delimiter_free in *. rewrite forallb_app in Hfree.
    apply andb_true_iff in Hfree. destruct Hfree as [_ Hfree].
    cbn [forallb] in Hfree. apply andb_true_iff in Hfree. tauto.
  - apply (slice_of_trans v (key ++ "="%byte :: v) message); [|exact Hslice].
    exists (key ++ ["="%byte]), []. now rewrite <- app_assoc, app_nil_r.
Qed.

End FieldContents.

(** * Further properties of the parsers *)

Section ParserContents.

Variable cpp_lib_to_chars : bool.
Variable from_chars_double : string_view -> option float.

Local Abbreviation populate_message :=
  (populate_message cpp_lib_to_chars from_chars_double).
Local Abbreviation process_field :=
  (process_field cpp_lib_to_chars from_chars_double).
Local Abbreviation parse_scalar :=
  (parse_scalar cpp_lib_to_chars from_chars_double).
Local Abbreviation parse_simd :=
  (parse_simd cpp_lib_to_chars from_chars_double).
Local Abbreviation parse_auto :=
  (parse_auto cpp_lib_to_chars from_chars_double).
Local Abbreviation apply_pairs :=
  (apply_pairs cpp_lib_to_chars from_chars_double).
Local Abbreviation stored := (stored cpp_lib_to_chars from_chars_double).

Lemma apply_pairs_step (k : Z) (v : string_view)
    (rest : list (Z * string_view)) (msg : FIXMessage) :
  apply_pairs ((k, v) :: rest) msg
  = apply_pairs rest (populate_message msg k v).
Proof. reflexivity. Qed.

(** The slot of a key after a run of writes is decided by the last write
    under that key. *)
Lemma slot_apply_pairs (tag : Z) (pairs : list (Z * string_view)) :
  forall msg,
    slot tag (apply_pairs pairs msg)
    = match last_value tag pairs with
      | Some v => stored tag v
      | None => slot tag msg
      end.
Proof.
  induction pairs as [|[k v] rest IH]; intros msg; [reflexivity|].
  rewrite apply_pairs_step, IH. cbn [last_value].
  destruct (last_value tag rest) as [v'|]; [reflexivity|].
  destruct (Z.eqb_spec k tag) as [->|Hne].
  - apply slot_populate_same.
  - now apply slot_populate_other.
Qed.

Lemma valid_populate (msg : FIXMessage) (k : Z) (v : string_view) :
  valid (populate_message msg k v) = valid msg.
Proof.
  unfold Parser.populate_message.
  repeat match goal with
         | |- context [if ?b then _ else _] => destruct b
         end; reflexivity.
Qed.

Lemma valid_apply_pairs (pairs : list (Z * string_view)) :
  forall msg, valid (apply_pairs pairs msg) = valid msg.
Proof.
  induction pairs as [|[k v] rest IH]; intros msg; [reflexivity|].
  rewrite apply_pairs_step, IH. apply valid_populate.
Qed.

(** A record is its seven slots and its flag. *)
Lemma record_by_slots (r1 r2 : FIXMessage) :
  (forall tag, slot tag r1 = slot tag r2) ->
  valid r1 = valid r2 ->
  r1 = r2.
Proof.
  intros Hslot Hvalid.
  pose proof (Hslot FIXTag.MessageType) as H1.
  pose proof (Hslot FIXTag.Symbol) as H2.
  pose proof (Hslot FIXTag.SenderCompID) as H3.
  pose proof (Hslot FIXTag.TargetCompID) as H4.
  pose proof (Hslot FIXTag.Side) as H5.
  pose proof (Hslot FIXTag.Price) as H6.
  pose proof (Hslot FIXTag.OrderQty) as H7.
  cbn in H1, H2, H3, H4, H5, H6, H7.
  destruct r1, r2. cbn in *. congruence.
Qed.

(** X20. The tokenizing loop refines the plain tokenizer: on the positions
    of either scanner, the fields the loop hands to [split_field] are exactly
    the non-empty slices of the message between delimiters, in order. *)
Theorem tokenizing_loop_refines_tokens (message : string_view) :
  fields_scalar message = tokens message
  /\ fields_simd message = tokens message.
Proof.
  split; [apply fields_scalar_tokens | apply fields_simd_tokens].
Qed.

(** X21. What a parse computes: the record either parser returns is the
    default record with every key/value pair of the input applied by
    [populate_message], first to last, and the validity flag then set. *)
Theorem parse_is_pairs_applied (message : string_view) :
  parse_scalar message
  = validate (apply_pairs (key_value_pairs message) default_message)
  /\ parse_simd message
     = validate (apply_pairs (key_value_pairs message) default_message).
Proof.
  split; [apply parse_scalar_pairs | apply parse_simd_pairs].
Qed.

(** X4. The three entry points agree: whatever the capability flag,
    [parse_auto] returns the record of [parse_scalar], and so does
    [parse_simd]. *)
Theorem entry_points_agree (avx512_available : bool)
    (message : string_view) :
  parse_simd message = parse_scalar message
  /\ parse_auto avx512_available message = parse_scalar message.
Proof.
  split; [apply parse_simd_scalar|].
  unfold Parser.parse_auto.
  destruct avx512_available; [apply parse_simd_scalar|reflexivity].
Qed.

(** X5. In the record either parser returns, the slot of every key is
    decided by the last key/value pair of the input under that key alone; a
    key the input never carries leaves its slot as the default record has
    it. *)
Theorem slot_decided_by_last_pair (message : string_view) (tag : Z) :
  let decided :=
    match last_value tag (key_value_pairs message) with
    | Some v => stored tag v
    | None => slot tag default_message
    end in
  slot tag (parse_scalar message) = decided
  /\ slot tag (parse_simd message) = decided.
Proof.
  cbv zeta. rewrite parse_simd_scalar, parse_scalar_pairs, slot_validate.
  split; apply slot_apply_pairs.
Qed.

Lemma populate_unrecognized (msg : FIXMessage) (tag : Z)
    (value : string_view) :
  recognized tag = false -> populate_message msg tag value = msg.
Proof.
  unfold recognized, Parser.populate_message. intros H.
  repeat (apply orb_false_iff in H; destruct H as [H ?]).
  repeat match goal with
         | E : (?a =? ?b) = false |- _ => rewrite E; clear E
         end.
  reflexivity.
Qed.

Lemma apply_pairs_recognized (pairs : list (Z * string_view)) :
  forall msg,
    apply_pairs (filter (fun kv => recognized (fst kv)) pairs) msg
    = apply_pairs pairs msg.
Proof.
  induction pairs as [|[k v] rest IH]; intros msg; [reflexivity|].
  cbn [filter fst]. rewrite apply_pairs_step.
  destruct (recognized k) eqn:Hk.
  - rewrite apply_pairs_step. apply IH.
  - rewrite (populate_unrecognized msg k v Hk). apply IH.
Qed.

(** X6. Pairs under a key that [populate_message] has no case for change
    nothing: either parser returns the record obtained from the pairs under
    recognized keys alone. The tags 8 (BeginString) and 9 (BodyLength), which
    the tag enumeration names, are among the keys without a case. *)
Theorem unrecognized_keys_ignored (message : string_view) :
  let kept :=
    filter (fun kv => recognized (fst kv)) (key_value_pairs message) in
  (parse_scalar message = validate (apply_pairs kept default_message)
   /\ parse_simd message = validate (apply_pairs kept default_message))
  /\ recognized FIXTag.BeginString = false
  /\ recognized FIXTag.BodyLength = false.
Proof.
  cbv zeta. rewrite parse_simd_scalar, parse_scalar_pairs.
  rewrite apply_pairs_recognized. repeat split.
Qed.

Lemma text_slot_apply_pairs (tag : Z) (pairs : list (Z * string_view))
    (s : string_view) :
  slot tag (apply_pairs pairs default_message) = Some (Text s) ->
  stored tag [] = Some (Text []) ->
  s = match last_value tag pairs with
      | Some v => v
      | None => []
      end.
Proof.
  rewrite slot_apply_pairs. intros Hslot Htext.
  destruct (last_value tag pairs) as [v|].
  - unfold Spec.stored in *.
    repeat match type of Htext with
           | context [if ?b then _ else _] => destruct b
           end; congruence.
  - unfold slot in *. cbn in Hslot.
    repeat match type of Hslot with
           | context [if ?b then _ else _] => destruct b
           end; congruence.
Qed.

Lemma carried_nonempty (o : option string_view) :
  match o with Some v => v | None => [] end <> []
  <-> exists v, o = Some v /\ v <> [].
Proof.
  destruct o as [v|]; split.
  - intros H. exists v. now split.
  - intros [w [E N]]. congruence.
  - congruence.
  - intros [w [E _]]. discriminate.
Qed.

(** X7. The record either parser returns is valid exactly when the last
    pair under the message-type key and the last pair under the symbol key
    both exist and carry non-empty values. *)
Theorem valid_iff_last_pairs (message : string_view) :
  let pairs := key_value_pairs message in
  let required tag :=
    exists v, last_value tag pairs = Some v /\ v <> [] in
  (valid (parse_scalar message) = true
   <-> required FIXTag.MessageType /\ required FIXTag.Symbol)
  /\ (valid (parse_simd message) = true
      <-> required FIXTag.MessageType /\ required FIXTag.Symbol).
Proof.
  cbv zeta. rewrite parse_simd_scalar, parse_scalar_pairs.
  set (pairs := key_value_pairs message).
  set (applied := apply_pairs pairs default_message).
  assert (Hmt : message_type applied
                = match last_value FIXTag.MessageType pairs with
                  | Some v => v
                  | None => []
                  end)
    by (apply text_slot_apply_pairs; reflexivity).
  assert (Hsy : symbol applied
                = match last_value FIXTag.Symbol pairs with
                  | Some v => v
                  | None => []
                  end)
    by (apply text_slot_apply_pairs; reflexivity).
  assert (H : valid (validate applied) = true
              <-> (exists v, last_value FIXTag.MessageType pairs = Some v
                             /\ v <> [])
                  /\ (exists v, last_value FIXTag.Symbol pairs = Some v
                                /\ v <> [])).
  { rewrite (validate_valid from_chars_double), Hmt, Hsy.
    now rewrite !carried_nonempty. }
  split; exact H.
Qed.

Lemma tokens_leading_delimiter (b : string_view) :
  tokens ("|"%byte :: b) = tokens b.
Proof. exact (tokens_app [] b). Qed.

(** X8. Empty fields are of no effect wherever they stand: doubling a
    delimiter, a trailing delimiter and a leading delimiter all leave the
    returned record as it is. *)
Theorem empty_fields_ignored (a b : string_view) :
  (parse_scalar (a ++ "|"%byte :: "|"%byte :: b)
   = parse_scalar (a ++ "|"%byte :: b)
   /\ parse_simd (a ++ "|"%byte :: "|"%byte :: b)
      = parse_simd (a ++ "|"%byte :: b))
  /\ (parse_scalar (a ++ ["|"%byte]) = parse_scalar a
      /\ parse_simd (a ++ ["|"%byte]) = parse_simd a)
  /\ (parse_scalar ("|"%byte :: b) = parse_scalar b
      /\ parse_simd ("|"%byte :: b) = parse_simd b).
Proof.
  rewrite !parse_simd_scalar, !parse_scalar_tokens.
  rewrite !tokens_app, !tokens_leading_delimiter.
  change (tokens []) with (@nil string_view). rewrite app_nil_r.
  repeat split.
Qed.

Lemma populate_commute (msg : FIXMessage) (k1 k2 : Z)
    (v1 v2 : string_view) :
  k1 <> k2 ->
  populate_message (populate_message msg k1 v1) k2 v2
  = populate_message (populate_message msg k2 v2) k1 v1.
Proof.
  intros Hne. apply record_by_slots.
  - intros tag.
    change (slot tag (apply_pairs [(k1, v1); (k2, v2)] msg)
            = slot tag (apply_pairs [(k2, v2); (k1, v1)] msg)).
    rewrite !slot_apply_pairs. cbn [last_value].
    destruct (Z.eqb_spec k1 tag), (Z.eqb_spec k2 tag);
      try reflexivity; congruence.
  - now rewrite !valid_populate.
Qed.

(** X10. Pairs under different keys may change places: two inputs whose
    key/value pairs differ only by two neighbours under different keys being
    swapped yield the same record. *)
Theorem neighbour_pairs_commute (m1 m2 : string_view)
    (before after : list (Z * string_view)) (k1 k2 : Z)
    (v1 v2 : string_view) :
  k1 <> k2 ->
  key_value_pairs m1 = before ++ (k1, v1) :: (k2, v2) :: after ->
  key_value_pairs m2 = before ++ (k2, v2) :: (k1, v1) :: after ->
  parse_scalar m1 = parse_scalar m2 /\ parse_simd m1 = parse_simd m2.
Proof.
  intros Hne H1 H2.
  rewrite !parse_simd_scalar, !parse_scalar_pairs, H1, H2.
  rewrite !apply_pairs_app, !apply_pairs_step.
  rewrite (populate_commute _ k1 k2 v1 v2 Hne). split; reflexivity.
Qed.

Lemma last_value_In (tag : Z) (pairs : list (Z * string_view))
    (v : string_view) :
  last_value tag pairs = Some v -> In (tag, v) pairs.
Proof.
  induction pairs as [|[k w] rest IH]; [discriminate|].
  cbn [last_value In]. destruct (last_value tag rest) as [v'|].
  - intros H. right. apply IH. exact H.
  - destruct (Z.eqb_spec k tag) as [->|_]; [|discriminate].
    intros H. injection H as ->. now left.
Qed.

Lemma apply_pairs_idempotent (pairs : list (Z * string_view))
    (msg : FIXMessage) :
  apply_pairs pairs (apply_pairs pairs msg) = apply_pairs pairs msg.
Proof.
  apply record_by_slots.
  - intros tag. rewrite !slot_apply_pairs.
    destruct (last_value tag pairs); reflexivity.
  - now rewrite !valid_apply_pairs.
Qed.

Lemma key_value_pairs_app (a b : string_view) :
  key_value_pairs (a ++ "|"%byte :: b)
  = key_value_pairs a ++ key_value_pairs b.
Proof.
  unfold key_value_pairs. now rewrite tokens_app, flat_map_app.
Qed.

(** X11. Parsing is idempotent under repetition: a message followed by a
    delimiter and the same message again yields the record of the message
    alone. *)
Theorem repeated_message_same_record (message : string_view) :
  parse_scalar (message ++ "|"%byte :: message) = parse_scalar message
  /\ parse_simd (message ++ "|"%byte :: message) = parse_simd message.
Proof.
  rewrite !parse_simd_scalar, !parse_scalar_pairs, key_value_pairs_app.
  rewrite apply_pairs_app, apply_pairs_idempotent. split; reflexivity.
Qed.

Lemma text_slot_free_slice (message : string_view) (tag : Z)
    (s : string_view) :
  slot tag (apply_pairs (key_value_pairs message) default_message)
  = Some (Text s) ->
  stored tag [] = Some (Text []) ->
  delimiter_free s = true /\ slice_of s message.
Proof.
  intros Hslot Htext.
  rewrite (text_slot_apply_pairs tag _ s Hslot Htext).
  destruct (last_value tag (key_value_pairs message)) as [v|] eqn:Hlast.
  - apply (pair_value_free_slice message tag v).
    now apply last_value_In.
  - split; [reflexivity|]. now exists [], message.
Qed.

(** X12. Zero copy, on contents: each of the four text slots of the record
    either parser returns is a contiguous slice of the input, and none
    contains the field delimiter. *)
Theorem text_slots_are_slices (message : string_view) :
  Forall (fun s => delimiter_free s = true /\ slice_of s message)
    (text_slots (parse_scalar message))
  /\ Forall (fun s => delimiter_free s = true /\ slice_of s message)
       (text_slots (parse_simd message)).
Proof.
  rewrite parse_simd_scalar, parse_scalar_pairs.
  assert (H : Forall
                (fun s => delimiter_free s = true /\ slice_of s message)
                (text_slots
                   (validate
                      (apply_pairs (key_value_pairs message)
                         default_message)))).
  { unfold text_slots. cbn [validate set_valid message_type symbol sender
                             target].
    repeat constructor.
    - now apply (text_slot_free_slice message FIXTag.MessageType).
    - now apply (text_slot_free_slice message FIXTag.MessageType).
    - now apply (text_slot_free_slice message FIXTag.Symbol).
    - now apply (text_slot_free_slice message FIXTag.Symbol).
    - now apply (text_slot_free_slice message FIXTag.SenderCompID).
    - now apply (text_slot_free_slice message FIXTag.SenderCompID).
    - now apply (text_slot_free_slice message FIXTag.TargetCompID).
    - now apply (text_slot_free_slice message FIXTag.TargetCompID). }
  split; exact H.
Qed.

Lemma key_value_pairs_after_delimiter (m b : string_view) :
  key_value_pairs ((m ++ ["|"%byte]) ++ b)
  = key_value_pairs (m ++ ["|"%byte]) ++ key_value_pairs b.
Proof.
  rewrite <- app_assoc. cbn [app].
  rewrite !key_value_pairs_app.
  change (key_value_pairs []) with (@nil (Z * string_view)).
  now rewrite app_nil_r.
Qed.

Lemma append_copies_record (base' : string_view) (r0 : FIXMessage) :
  let base := base' ++ ["|"%byte] in
  forall n msg',
    let msg := msg' ++ ["|"%byte] in
    apply_pairs (key_value_pairs base)
      (apply_pairs (key_value_pairs msg) r0)
    = apply_pairs (key_value_pairs msg) r0 ->
    apply_pairs (key_value_pairs (TestData.append_copies n msg base)) r0
    = apply_pairs (key_value_pairs msg) r0.
Proof.
  cbv zeta. induction n as [|n IH]; intros msg' Hfix; [reflexivity|].
  cbn [TestData.append_copies].
  rewrite (app_assoc (msg' ++ ["|"%byte]) base' ["|"%byte]).
  rewrite IH.
  - rewrite <- app_assoc.
    rewrite key_value_pairs_after_delimiter, apply_pairs_app. exact Hfix.
  - rewrite <- app_assoc.
    rewrite key_value_pairs_after_delimiter, apply_pairs_app.
    now rewrite Hfix, Hfix.
Qed.

(** X13. The stress-test message: for every repeat count, both parsers
    return for [generate_long_message] the record of its base message, a
    valid record of type "D" with symbol "TEST", side 1 and quantity 100. *)
Theorem generate_long_message_record (repeat_count : nat) :
  let r := parse_scalar (TestData.generate_long_message repeat_count) in
  r = parse_scalar (TestData.generate_long_message 0)
  /\ parse_simd (TestData.generate_long_message repeat_count) = r
  /\ valid r = true
  /\ message_type r = sv "D"
  /\ symbol r = sv "TEST"
  /\ side r = 1
  /\ quantity r = 100.
Proof.
  cbv zeta. rewrite parse_simd_scalar.
  assert (H : parse_scalar (TestData.generate_long_message repeat_count)
              = parse_scalar (TestData.generate_long_message 0)).
  { rewrite !parse_scalar_pairs. f_equal.
    unfold TestData.generate_long_message. cbv zeta.
    change (sv "8=FIX.4.4|35=D|55=TEST|54=1|38=100|44=50.00|")
      with (sv "8=FIX.4.4|35=D|55=TEST|54=1|38=100|44=50.00"
            ++ ["|"%byte]).
    apply (append_copies_record
             (sv "8=FIX.4.4|35=D|55=TEST|54=1|38=100|44=50.00")).
    apply apply_pairs_idempotent. }
  rewrite H. repeat split.
Qed.

End ParserContents.

(** * Further properties of the numeric converters *)

Section NumericContents.

Import Fallback.

Lemma digit_of_range (c : byte) :
  is_digit c = true -> 0 <= digit_of c <= 9.
Proof.
  destruct c; intros H; try discriminate H; cbv; split; intro; discriminate.
Qed.

Lemma digit_run_shape (bytes : list byte) :
  forall ds tl,
    digit_run bytes = (ds, tl) ->
    bytes = ds ++ tl
    /\ forallb is_digit ds = true
    /\ match tl with
       | [] => True
       | c :: _ => is_digit c = false
       end.
Proof.
  induction bytes as [|c rest IH]; intros ds tl H; cbn [digit_run] in H.
  - injection H as <- <-. repeat split.
  - destruct (is_digit c) eqn:Hc.
    + destruct (digit_run rest) as [ds' tl'].
      injection H as <- <-.
      destruct (IH ds' tl' eq_refl) as (-> & Hds & Htl).
      cbn [app forallb]. rewrite Hc, Hds. repeat split. exact Htl.
    + injection H as <- <-. cbn [app forallb]. repeat split. exact Hc.
Qed.

Lemma accumulate_digits_run (ds tl : list byte) (result : Z) :
  forallb is_digit ds = true ->
  match tl with
  | [] => True
  | c :: _ => is_digit c = false
  end ->
  accumulate_digits (ds ++ tl) result = accumulate_digits ds result.
Proof.
  intros Hds Htl. destruct tl as [|c tl'].
  - now rewrite app_nil_r.
  - now apply accumulate_digits_stops.
Qed.

Lemma decimal_fold_grows (ds : list byte) :
  forallb is_digit ds = true ->
  forall acc,
    0 <= acc ->
    acc <= fold_left (fun a c => a * 10 + digit_of c) ds acc.
Proof.
  induction ds as [|d ds IH]; intros Hds acc Hacc; cbn [fold_left]; [lia|].
  cbn [forallb] in Hds. apply andb_true_iff in Hds. destruct Hds as [Hd Hds].
  pose proof (digit_of_range d Hd).
  specialize (IH Hds (acc * 10 + digit_of d)). lia.
Qed.

Lemma wrap32_in_range (z : Z) :
  INT32_MIN <= z <= INT32_MAX -> wrap32 z = z.
Proof.
  unfold wrap32, INT32_MIN, INT32_MAX. intros H.
  rewrite Z.mod_small; lia.
Qed.

(** Without overflow the manual loop computes the decimal value. *)
Lemma accumulate_digits_decimal (ds : list byte) :
  forallb is_digit ds = true ->
  forall acc,
    0 <= acc ->
    fold_left (fun a c => a * 10 + digit_of c) ds acc <= INT32_MAX ->
    accumulate_digits ds acc
    = fold_left (fun a c => a * 10 + digit_of c) ds acc.
Proof.
  induction ds as [|d ds IH]; intros Hds acc Hacc Hmax; [reflexivity|].
  cbn [forallb] in Hds. apply andb_true_iff in Hds. destruct Hds as [Hd Hds].
  cbn [accumulate_digits fold_left] in *. rewrite Hd.
  pose proof (digit_of_range d Hd) as Hrange.
  pose proof (decimal_fold_grows ds Hds (acc * 10 + digit_of d)) as Hgrow.
  rewrite wrap32_in_range by (unfold INT32_MIN, INT32_MAX in *; lia).
  apply IH; [assumption|lia|assumption].
Qed.

Lemma manual_value_of_fast (negative : bool) (body : list byte) (v : Z) :
  match fst (digit_run body) with
  | [] => None
  | ds =>
      let v := if negative then - decimal_value ds else decimal_value ds in
      if (INT32_MIN <=? v) && (v <=? INT32_MAX) then Some v else None
  end = Some v ->
  INT32_MIN < v ->
  (if negative then wrap32 (- accumulate_digits body 0)
   else accumulate_digits body 0) = v.
Proof.
  intros Hfast Hmin.
  destruct (digit_run body) as [ds tl] eqn:Hrun.
  destruct (digit_run_shape body ds tl Hrun) as (-> & Hds & Htl).
  cbn [fst] in Hfast.
  destruct ds as [|d ds]; [discriminate|].
  set (digits := d :: ds) in *. cbv zeta in Hfast.
  destruct ((INT32_MIN <=? (if negative then - decimal_value digits
                            else decimal_value digits))
            && ((if negative then - decimal_value digits
                 else decimal_value digits) <=? INT32_MAX)) eqn:Hrange;
    [|discriminate].
  injection Hfast as <-.
  apply andb_true_iff in Hrange. destruct Hrange as [Hlo Hhi].
  apply Z.leb_le in Hlo, Hhi.
  rewrite (accumulate_digits_run digits tl 0 Hds Htl).
  pose proof (decimal_fold_grows digits Hds 0 (Z.le_refl 0)) as Hpos.
  fold (decimal_value digits) in Hpos.
  assert (Hfit : decimal_value digits <= INT32_MAX)
    by (destruct negative; unfold INT32_MIN, INT32_MAX in *; lia).
  rewrite (accumulate_digits_decimal digits Hds 0 (Z.le_refl 0) Hfit).
  fold (decimal_value digits).
  destruct negative; [|reflexivity].
  apply wrap32_in_range. unfold INT32_MIN, INT32_MAX in *. lia.
Qed.

(** X14. The two paths of [parse_int] agree: whenever [std::from_chars]
    succeeds with a value other than [INT32_MIN], the manual fallback run on
    the same text returns that value too. *)
Theorem parse_int_paths_agree (str : string_view) (v : Z) :
  from_chars_int32 str = Some v ->
  INT32_MIN < v ->
  parse_int str = v /\ parse_int_manual str = v.
Proof.
  intros Hfast Hmin. unfold parse_int. rewrite Hfast. split; [reflexivity|].
  unfold from_chars_int32 in Hfast. unfold parse_int_manual, leading_minus.
  destruct str as [|c rest].
  - exact (manual_value_of_fast false [] v Hfast Hmin).
  - destruct (Byte.eqb c "-").
    + exact (manual_value_of_fast true rest v Hfast Hmin).
    + exact (manual_value_of_fast false (c :: rest) v Hfast Hmin).
Qed.

Lemma integer_part_loop_no_digits (bytes : list byte) :
  forallb (fun c => negb (is_digit c)) bytes = true ->
  forall acc,
    fst (integer_part_loop bytes acc) = acc
    /\ forallb (fun c => negb (is_digit c))
         (snd (integer_part_loop bytes acc)) = true.
Proof.
  induction bytes as [|c rest IH]; intros Hnd acc; [now split|].
  cbn [integer_part_loop]. destruct (Byte.eqb c ".").
  - now split.
  - cbn [forallb] in Hnd. apply andb_true_iff in Hnd.
    destruct Hnd as [Hc Hrest]. apply negb_true_iff in Hc. rewrite Hc.
    now apply IH.
Qed.

Lemma fractional_part_loop_no_digits (bytes : list byte)
    (acc divisor : float) :
  forallb (fun c => negb (is_digit c)) bytes = true ->
  fractional_part_loop bytes acc divisor = acc.
Proof.
  destruct bytes as [|c rest]; [reflexivity|].
  cbn [forallb fractional_part_loop]. intros H.
  apply andb_true_iff in H. destruct H as [Hc _].
  apply negb_true_iff in Hc. now rewrite Hc.
Qed.

Lemma leading_minus_no_digits (str : string_view) :
  forallb (fun c => negb (is_digit c)) str = true ->
  forallb (fun c => negb (is_digit c)) (snd (leading_minus str)) = true.
Proof.
  unfold leading_minus. destruct str as [|c rest]; [reflexivity|].
  destruct (Byte.eqb c "-"); cbn [snd]; [|trivial].
  cbn [forallb]. intros H. apply andb_true_iff in H. tauto.
Qed.

(** X15. A text without any decimal digit converts to zero on the manual
    path of [parse_double]: to [0.0], or to [-0.0] when it starts with
    ['-']. *)
Theorem parse_double_no_digits_zero (str : string_view) :
  forallb (fun c => negb (is_digit c)) str = true ->
  parse_double_manual str
  = if fst (leading_minus str) then (- 0)%float else 0%float.
Proof.
  intros Hnd. unfold parse_double_manual.
  pose proof (leading_minus_no_digits str Hnd) as Hbody.
  destruct (leading_minus str) as [negative bytes]. cbn [fst snd] in *.
  destruct (integer_part_loop_no_digits bytes Hbody 0%float)
    as [Hint Hrest].
  destruct (integer_part_loop bytes 0%float) as [integer_part bytes'].
  cbn [fst snd] in *. subst integer_part.
  assert (Hfrac : match bytes' with
                  | [] => 0%float
                  | c :: after =>
                      if Byte.eqb c "."
                      then fractional_part_loop after 0 10
                      else 0%float
                  end = 0%float).
  { destruct bytes' as [|c after]; [reflexivity|].
    destruct (Byte.eqb c "."); [|reflexivity].
    apply fractional_part_loop_no_digits.
    cbn [forallb] in Hrest. apply andb_true_iff in Hrest. tauto. }
  rewrite Hfrac. destruct negative; reflexivity.
Qed.

Lemma leading_minus_nonempty (a rest : list byte) :
  empty a = false ->
  leading_minus (a ++ rest)
  = (fst (leading_minus a), snd (leading_minus a) ++ rest).
Proof.
  unfold leading_minus. destruct a as [|c a]; [discriminate|]. intros _.
  cbn [app]. destruct (Byte.eqb c "-"); reflexivity.
Qed.

Lemma leading_minus_keeps_no_point (a : list byte) :
  existsb (fun x => Byte.eqb x ".") a = false ->
  existsb (fun x => Byte.eqb x ".") (snd (leading_minus a)) = false.
Proof.
  unfold leading_minus. destruct a as [|c a]; [reflexivity|].
  destruct (Byte.eqb c "-"); cbn [snd]; [|trivial].
  cbn [existsb]. intros H. apply orb_false_iff in H. tauto.
Qed.

Lemma integer_part_loop_steps_over (a : list byte) (c : byte)
    (b : list byte) :
  existsb (fun x => Byte.eqb x ".") a = false ->
  is_digit c = false ->
  Byte.eqb c "." = false ->
  forall acc,
    integer_part_loop (a ++ c :: b) acc = integer_part_loop (a ++ b) acc.
Proof.
  intros Ha Hc Hpoint. induction a as [|x a IH]; intros acc.
  - cbn [app integer_part_loop]. now rewrite Hpoint, Hc.
  - cbn [existsb] in Ha. apply orb_false_iff in Ha. destruct Ha as [Hx Ha].
    cbn [app integer_part_loop]. rewrite Hx. apply (IH Ha).
Qed.

(** X16. On the manual path of [parse_double] a byte before the first ['.']
    that is neither a digit nor ['.'] is stepped over and reading goes on:
    the result is that of the text with the byte removed (so "1,000.5" reads
    as "1000.5" and "1e5" as "15"). The text before the byte must be
    non-empty, so that a leading sign stays where it is. *)
Theorem parse_double_steps_over (a b : string_view) (c : byte) :
  empty a = false ->
  existsb (fun x => Byte.eqb x ".") a = false ->
  is_digit c = false ->
  Byte.eqb c "." = false ->
  parse_double_manual (a ++ c :: b) = parse_double_manual (a ++ b).
Proof.
  intros Hne Ha Hc Hpoint. unfold parse_double_manual.
  rewrite !(leading_minus_nonempty a) by exact Hne.
  rewrite (integer_part_loop_steps_over _ c b
             (leading_minus_keeps_no_point a Ha) Hc Hpoint).
  reflexivity.
Qed.

End NumericContents.

(** * Properties of the capability detection *)

Section CapabilityContents.

Import Capability.

Lemma land_pow2 (x : Z) (k : Z) :
  0 <= k ->
  Z.land x (2 ^ k) = if Z.testbit x k then 2 ^ k else 0.
Proof.
  intros Hk. apply Z.bits_inj'. intros n Hn.
  rewrite Z.land_spec, Z.pow2_bits_eqb by exact Hk.
  destruct (Z.eqb_spec k n) as [->|Hne].
  - destruct (Z.testbit x n); [|now rewrite Z.bits_0].
    rewrite Z.pow2_bits_eqb, Z.eqb_refl by exact Hn. reflexivity.
  - rewrite andb_false_r.
    destruct (Z.testbit x k); [|now rewrite Z.bits_0].
    rewrite Z.pow2_bits_eqb by exact Hk.
    symmetry. now apply Z.eqb_neq.
Qed.

(** [x & (1 << k)] is non-zero exactly when bit [k] of [x] is set. *)
Lemma land_shift_bit (x : Z) (k : Z) :
  0 <= k ->
  negb (Z.land x (Z.shiftl 1 k) =? 0) = Z.testbit x k.
Proof.
  intros Hk. rewrite Z.shiftl_1_l, (land_pow2 x k Hk).
  destruct (Z.testbit x k); [|reflexivity].
  apply negb_true_iff, Z.eqb_neq.
  pose proof (Z.pow_pos_nonneg 2 k). lia.
Qed.

(** [(x & 0xE6) == 0xE6] asks for the bits 1, 2, 5, 6 and 7 of [x]. *)
Lemma land_e6 (x : Z) :
  (Z.land x 230 =? 230)
  = Z.testbit x 1 && Z.testbit x 2 && Z.testbit x 5 && Z.testbit x 6
    && Z.testbit x 7.
Proof.
  change 230 with (Z.lor (2 ^ 1)
                     (Z.lor (2 ^ 2) (Z.lor (2 ^ 5) (Z.lor (2 ^ 6) (2 ^ 7))))).
  rewrite !Z.land_lor_distr_r, !land_pow2 by lia.
  destruct (Z.testbit x 1), (Z.testbit x 2), (Z.testbit x 5),
    (Z.testbit x 6), (Z.testbit x 7); reflexivity.
Qed.

(** X17. [has_avx512_support] answers yes exactly when both CPUID queries
    succeed, OSXSAVE (leaf 1, ECX bit 27), AVX512F and AVX512BW (leaf 7, EBX
    bits 16 and 30) are reported, and XCR0 has the bits 1, 2, 5, 6 and 7 set;
    a failed query gives no. *)
Theorem has_avx512_support_exactly (leaf1 leaf7 : option cpuid_regs)
    (xcr0_lo : Z) :
  has_avx512_support leaf1 leaf7 xcr0_lo
  = match leaf1, leaf7 with
    | Some r1, Some r7 =>
        Z.testbit (ecx r1) 27
        && (Z.testbit (ebx r7) 16 && Z.testbit (ebx r7) 30
            && (Z.testbit xcr0_lo 1 && Z.testbit xcr0_lo 2
                && Z.testbit xcr0_lo 5 && Z.testbit xcr0_lo 6
                && Z.testbit xcr0_lo 7))
    | _, _ => false
    end.
Proof.
  unfold has_avx512_support.
  destruct leaf1 as [r1|]; [|reflexivity].
  rewrite <- (land_shift_bit (ecx r1) 27) by lia.
  destruct (Z.land (ecx r1) (Z.shiftl 1 27) =? 0).
  - now destruct leaf7.
  - destruct leaf7 as [r7|]; [|reflexivity].
    rewrite !land_shift_bit, land_e6 by lia. reflexivity.
Qed.

End CapabilityContents.

(** * Properties of the test-data generators *)

Section GeneratorContents.

Import TestData.

Lemma fill_segments_length (todo : nat) :
  forall i dc sl placed delim result,
    List.length (fill_segments todo i dc sl placed delim result)
    = (List.length result + todo)%nat.
Proof.
  induction todo as [|todo IH]; intros i dc sl placed delim result;
    cbn [fill_segments]; [lia|].
  destruct ((placed <? dc)%nat && (0 <? i)%nat && (i mod sl =? 0)%nat);
    rewrite IH, length_app; cbn [List.length]; lia.
Qed.

Lemma fill_segments_prefix (todo : nat) :
  forall i dc sl placed delim result,
    exists tail,
      fill_segments todo i dc sl placed delim result = result ++ tail.
Proof.
  induction todo as [|todo IH]; intros i dc sl placed delim result;
    cbn [fill_segments].
  - exists []. now rewrite app_nil_r.
  - destruct ((placed <? dc)%nat && (0 <? i)%nat && (i mod sl =? 0)%nat).
    + destruct (IH (S i) dc sl (S placed) delim (result ++ [delim]))
        as [tail ->].
      exists (delim :: tail). now rewrite <- app_assoc.
    + destruct (IH (S i) dc sl placed delim (result ++ ["X"%byte]))
        as [tail ->].
      exists ("X"%byte :: tail). now rewrite <- app_assoc.
Qed.

Lemma count_byte_snoc (d c : byte) (s : string_view) :
  count_byte d (s ++ [c])
  = (count_byte d s + if Byte.eqb c d then 1 else 0)%nat.
Proof.
  unfold count_byte. rewrite filter_app, length_app. cbn [filter].
  destruct (Byte.eqb c d); reflexivity.
Qed.

Lemma fill_segments_count (todo : nat) :
  forall i dc sl placed delim result,
    Byte.eqb "X" delim = false ->
    (placed <= dc)%nat ->
    (count_byte delim (fill_segments todo i dc sl placed delim result)
     + placed <= count_byte delim result + dc)%nat.
Proof.
  induction todo as [|todo IH]; intros i dc sl placed delim result HX Hle;
    cbn [fill_segments]; [lia|].
  destruct (Nat.ltb_spec placed dc) as [Hlt|Hge]; cbn [andb].
  - destruct ((0 <? i)%nat && (i mod sl =? 0)%nat).
    + specialize (IH (S i) dc sl (S placed) delim (result ++ [delim]) HX).
      rewrite count_byte_snoc, (byte_dec_lb (eq_refl delim)) in IH. lia.
    + specialize (IH (S i) dc sl placed delim (result ++ ["X"%byte]) HX).
      rewrite count_byte_snoc, HX in IH. lia.
  - specialize (IH (S i) dc sl placed delim (result ++ ["X"%byte]) HX).
    rewrite count_byte_snoc, HX in IH. lia.
Qed.

Lemma count_byte_repeat_other (d c : byte) (n : nat) :
  Byte.eqb c d = false -> count_byte d (repeat c n) = 0%nat.
Proof.
  intros H. unfold count_byte.
  induction n as [|n IH]; [reflexivity|].
  cbn [repeat filter]. now rewrite H.
Qed.

(** X18. [generate_test_string] returns a text of exactly the length asked
    for; when the delimiter is not the filler ['X'], the text starts with the
    filler and the scanner finds at most [delimiter_count] delimiters in
    it. *)
Theorem generate_test_string_shape (length delimiter_count : nat)
    (delim : byte) :
  List.length (generate_test_string length delimiter_count delim) = length
  /\ (Byte.eqb "X" delim = false ->
      (List.length
         (find_delimiters_scalar
            (generate_test_string length delimiter_count delim) delim)
       <= delimiter_count)%nat
      /\ (length <> 0%nat ->
          nth_error (generate_test_string length delimiter_count delim) 0
          = Some "X"%byte)).
Proof.
  unfold generate_test_string.
  destruct (Nat.eqb_spec length 0) as [->|Hlen].
  { split; [reflexivity|]. intros _. split; [cbn; lia|congruence]. }
  destruct (Nat.eqb_spec delimiter_count 0) as [->|Hdc].
  { split; [apply repeat_length|]. intros HX. split.
    - unfold find_delimiters_scalar. rewrite scan_bytes_count.
      fold (count_byte delim (repeat "X"%byte length)).
      rewrite (count_byte_repeat_other delim "X" length HX). lia.
    - intros _. destruct length; [congruence|reflexivity]. }
  set (sl := if (length / (delimiter_count + 1) =? 0)%nat then 1%nat
             else (length / (delimiter_count + 1))%nat).
  split; [now rewrite fill_segments_length|].
  intros HX. split.
  - unfold find_delimiters_scalar. rewrite scan_bytes_count.
    pose proof (fill_segments_count length 0 delimiter_count sl 0 delim []
                  HX (Nat.le_0_l _)) as H.
    unfold count_byte in H. cbn [filter List.length] in H. lia.
  - intros _. destruct length as [|n]; [congruence|].
    cbn [fill_segments Nat.ltb Nat.leb andb]. rewrite andb_false_r.
    cbn [app].
    destruct (fill_segments_prefix n 1 delimiter_count sl 0 delim
                ["X"%byte]) as [tail ->].
    reflexivity.
Qed.

End GeneratorContents.

(** * The generated batch goes through the parsers *)

Section BatchContents.

Import TestData.

Variable cpp_lib_to_chars : bool.
Variable from_chars_double : string_view -> option float.
Variable to_string_double : float -> string_view.

Local Abbreviation process_field :=
  (process_field cpp_lib_to_chars from_chars_double).
Local Abbreviation parse_scalar :=
  (parse_scalar cpp_lib_to_chars from_chars_double).
Local Abbreviation parse_simd :=
  (parse_simd cpp_lib_to_chars from_chars_double).
Local Abbreviation parse_double :=
  (parse_double cpp_lib_to_chars from_chars_double).
Local Abbreviation batch_message := (batch_message to_string_double).
Local Abbreviation generate_message_batch :=
  (generate_message_batch to_string_double).

Lemma batch_loop_map (todo : nat) :
  forall i messages,
    batch_loop to_string_double todo i messages
    = messages ++ map batch_message (seq i todo).
Proof.
  induction todo as [|todo IH]; intros i messages; cbn [batch_loop seq map].
  - now rewrite app_nil_r.
  - now rewrite IH, <- app_assoc.
Qed.

Lemma generate_message_batch_nth (count i : nat) :
  (i < count)%nat ->
  nth i (generate_message_batch count) [] = batch_message i.
Proof.
  intros Hlt. unfold TestData.generate_message_batch.
  rewrite batch_loop_map. cbn [app].
  rewrite nth_indep with (d' := batch_message 0)
    by now rewrite length_map, length_seq.
  now rewrite map_nth, seq_nth.
Qed.

(** A message whose last field is the price: the fields before it decide
    everything but the price slot. *)
Lemma parse_price_last (body price_text : string_view) :
  delimiter_free price_text = true ->
  parse_scalar (body ++ sv "|44=" ++ price_text ++ sv "|")
  = validate
      (set_price
         (fold_left process_field (tokens body) default_message)
         (parse_double price_text)).
Proof.
  intros Hfree. rewrite parse_scalar_tokens.
  change (body ++ sv "|44=" ++ price_text ++ sv "|")
    with (body ++ "|"%byte :: (sv "44=" ++ price_text) ++ ["|"%byte]).
  rewrite !tokens_app.
  change (tokens []) with (@nil string_view). rewrite app_nil_r.
  rewrite (tokens_delimiter_free (sv "44=" ++ price_text));
    [|unfold delimiter_free in *; cbn [sv app forallb];
      now rewrite forallb_app in * | reflexivity].
  rewrite fold_left_app. reflexivity.
Qed.

Lemma app_body_rest {A} (a s b t c q rest : list A) :
  a ++ s ++ b ++ t ++ c ++ q ++ rest
  = (a ++ s ++ b ++ t ++ c ++ q) ++ rest.
Proof. now rewrite <- !app_assoc. Qed.

Lemma mod_10_5_2 (i : nat) :
  (i mod 5 = (i mod 10) mod 5 /\ i mod 2 = (i mod 10) mod 2)%nat.
Proof.
  pose proof (Nat.div_mod_eq i 10) as H.
  split.
  - rewrite H at 1. rewrite Nat.add_comm.
    replace (10 * (i / 10))%nat with ((2 * (i / 10)) * 5)%nat by lia.
    apply Nat.Div0.mod_add.
  - rewrite H at 1. rewrite Nat.add_comm.
    replace (10 * (i / 10))%nat with ((5 * (i / 10)) * 2)%nat by lia.
    apply Nat.Div0.mod_add.
Qed.

(** X19. Every message [generate_message_batch] builds goes through both
    parsers as a valid record that carries what the message was built from:
    type "D", sender "TEST", target "EXCH", the symbol of its index, its side
    and its quantity, and as price the conversion of the printed price. The
    printed price must not contain the field delimiter. *)
Theorem batch_messages_parse (count i : nat) :
  (forall p, delimiter_free (to_string_double p) = true) ->
  (i < count)%nat ->
  let message := nth i (generate_message_batch count) [] in
  let r := parse_scalar message in
  parse_simd message = r
  /\ valid r = true
  /\ message_type r = sv "D"
  /\ sender r = sv "TEST"
  /\ target r = sv "EXCH"
  /\ symbol r = nth (i mod 5) symbols []
  /\ side r = Z.of_nat (i mod 2 + 1)
  /\ quantity r = Z.of_nat ((i mod 10 + 1) * 100)
  /\ price r
     = parse_double (to_string_double (nth (i mod 5) prices 0%float)).
Proof.
  intros Hfree Hlt. cbv zeta.
  rewrite parse_simd_scalar, generate_message_batch_nth by exact Hlt.
  split; [reflexivity|].
  unfold TestData.batch_message. cbv zeta.
  destruct (mod_10_5_2 i) as [-> ->].
  pose proof (Nat.mod_upper_bound i 10 ltac:(discriminate)) as Hk.
  set (k := (i mod 10)%nat) in *. clearbody k.
  rewrite app_body_rest.
  rewrite (parse_price_last _ _ (Hfree _)).
  generalize (parse_double
                (to_string_double (nth (k mod 5) prices 0%float))).
  intros x.
  do 10 (destruct k as [|k]; [vm_compute; repeat split|]).
  lia.
Qed.

End BatchContents.

(** * The further laws at concrete inputs *)

Lemma neighbour_pairs_commute_witness :
  parse_scalar false no_from_chars_double (sv "35=D|55=SPY|")
  = parse_scalar false no_from_chars_double (sv "55=SPY|35=D|")
  /\ parse_simd false no_from_chars_double (sv "35=D|55=SPY|")
     = parse_simd false no_from_chars_double (sv "55=SPY|35=D|").
Proof.
  apply (neighbour_pairs_commute false no_from_chars_double
           (sv "35=D|55=SPY|") (sv "55=SPY|35=D|") [] []
           FIXTag.MessageType FIXTag.Symbol (sv "D") (sv "SPY")).
  - discriminate.
  - vm_compute. reflexivity.
  - vm_compute. reflexivity.
Defined.

Lemma parse_int_paths_agree_witness :
  parse_int (sv "-42x") = -42
  /\ Fallback.parse_int_manual (sv "-42x") = -42.
Proof.
  apply (parse_int_paths_agree (sv "-42x") (-42)).
  - vm_compute. reflexivity.
  - vm_compute. reflexivity.
Defined.

Lemma parse_double_no_digits_zero_witness :
  parse_double_manual (sv "-abc") = (- 0)%float.
Proof.
  exact (parse_double_no_digits_zero (sv "-abc") eq_refl).
Defined.

Lemma parse_double_steps_over_witness :
  parse_double_manual (sv "1,000.5") = parse_double_manual (sv "1000.5").
Proof.
  exact (parse_double_steps_over (sv "1") (sv "000.5") ","
           eq_refl eq_refl eq_refl eq_refl).
Defined.

Lemma generate_test_string_shape_witness :
  List.length (TestData.generate_test_string 20 3 "|") = 20%nat
  /\ (List.length
        (find_delimiters_scalar (TestData.generate_test_string 20 3 "|") "|")
      <= 3)%nat
  /\ nth_error (TestData.generate_test_string 20 3 "|") 0 = Some "X"%byte.
Proof.
  destruct (generate_test_string_shape 20 3 "|") as [Hlen Hrest].
  destruct (Hrest eq_refl) as [Hcount Hfirst].
  split; [exact Hlen|]. split; [exact Hcount|].
  apply Hfirst. discriminate.
Defined.

Lemma batch_messages_parse_witness :
  let message :=
    nth 7 (TestData.generate_message_batch (fun _ => sv "141.750000") 8) []
  in
  valid (parse_scalar false no_from_chars_double message) = true
  /\ symbol (parse_scalar false no_from_chars_double message) = sv "GOOGL"
  /\ side (parse_scalar false no_from_chars_double message) = 2
  /\ quantity (parse_scalar false no_from_chars_double message) = 800.
Proof.
  destruct (batch_messages_parse false no_from_chars_double
              (fun _ => sv "141.750000") 8 7
              (fun _ => eq_refl) ltac:(repeat constructor))
    as (_ & Hvalid & _ & _ & _ & Hsymbol & Hside & Hqty & _).
  cbv zeta. split; [exact Hvalid|]. split; [exact Hsymbol|].
  split; [exact Hside | exact Hqty].
Defined.
